(** * Shallow embedding of the VPC endpoint service and S3 object copy
      resources of terraform-provider-aws
      (aws/resource_aws_vpc_endpoint_service.go,
       aws/resource_aws_s3_object_copy.go).

    Sets of strings ([*schema.Set] of strings) are stdpp's [gset string];
    a request field of type [[]*string] is [option (list string)] ([None]
    for a nil slice); calls against the remote API are events appended to
    a trace, their answers come from an environment record. *)

From Stdlib Require Import String Ascii.
From stdpp Require Import base gmap sets list strings.


(* ------------------------------------------------------------------ *)
(** ** Strings sets and the set-difference helper *)

(** [expandStringSet]: the elements of a string set as a slice. *)
Definition expandStringSet (s : gset string) : list string := elements s.

(** [*schema.Set] equality ([Set.Equal]); [ResourceData.HasChange] on a
    set attribute is its negation. *)
Definition setHasChange (o n : gset string) : bool := bool_decide (o ≠ n).

(** [setVpcEndpointServiceUpdateLists d key a r]: [o] and [n] are the old
    and new value of [key]; [a] and [r] the current contents of the add
    and remove fields of the request, returned updated. *)
Definition setVpcEndpointServiceUpdateLists (o n : gset string)
    (a r : option (list string)) : option (list string) * option (list string) :=
  if setHasChange o n then
    let add := expandStringSet (n ∖ o) in
    let a' := if bool_decide (0 < length add) then Some add else a in
    let remove := expandStringSet (o ∖ n) in
    let r' := if bool_decide (0 < length remove) then Some remove else r in
    (a', r')
  else (a, r).

(** The set a request list field denotes ([nil] is the empty set). *)
Definition fieldSet (f : option (list string)) : gset string :=
  match f with None => ∅ | Some l => list_to_set l end.

(* ------------------------------------------------------------------ *)
(** ** VPC endpoint service: attributes, requests, errors *)

(** The attributes the operations read ([tags] as a string map). *)
Record VpcEndpointService := {
  acceptance_required : bool;
  gateway_load_balancer_arns : gset string;
  network_load_balancer_arns : gset string;
  private_dns_name : string;
  allowed_principals : gset string;
  tags : gmap string string
}.

(** [*schema.ResourceData]: prior (old) and planned (new) attributes;
    [d.Get] reads the new ones.  The id lives in the operation state. *)
Record ResourceData := { d_old : VpcEndpointService; d_new : VpcEndpointService }.

Record CreateVpcEndpointServiceConfigurationInput := {
  cr_AcceptanceRequired : bool;
  cr_TagSpecifications : gmap string string;
  cr_PrivateDnsName : option string;
  cr_GatewayLoadBalancerArns : option (list string);
  cr_NetworkLoadBalancerArns : option (list string)
}.

Record ModifyVpcEndpointServiceConfigurationInput := {
  mc_ServiceId : string;
  mc_PrivateDnsName : option string;
  mc_AcceptanceRequired : option bool;
  mc_AddGatewayLoadBalancerArns : option (list string);
  mc_RemoveGatewayLoadBalancerArns : option (list string);
  mc_AddNetworkLoadBalancerArns : option (list string);
  mc_RemoveNetworkLoadBalancerArns : option (list string)
}.

Record ModifyVpcEndpointServicePermissionsInput := {
  mp_ServiceId : string;
  mp_AddAllowedPrincipals : option (list string);
  mp_RemoveAllowedPrincipals : option (list string)
}.

(** An [awserr.Error], identified by its code. *)
Record AwsErr := { aws_code : string }.

Definition errCodeNotFound : string := "InvalidVpcEndpointServiceId.NotFound".

(** [isAWSErr(err, "InvalidVpcEndpointServiceId.NotFound", "")]. *)
Definition isNotFound (e : AwsErr) : bool := bool_decide (aws_code e = errCodeNotFound).

(** Go errors surfacing from the operations. *)
Inductive Err :=
  | EAws (e : AwsErr)                (** an API call failed *)
  | EFailedState                     (** errors.New("VPC Endpoint Service is in a failed state") *)
  | EUnexpectedState (state : string) (** SDK: resource.UnexpectedStateError *)
  | ENotFound                        (** SDK: resource.NotFoundError *)
  | ETimeout (lastState : string)    (** SDK: resource.TimeoutError *)
  | EWrap (context : string) (e : Err). (** fmt.Errorf("...: %s", err) *)

(** ec2.ServiceState* constants. *)
Definition ServiceStatePending : string := "Pending".
Definition ServiceStateAvailable : string := "Available".
Definition ServiceStateDeleting : string := "Deleting".
Definition ServiceStateDeleted : string := "Deleted".
Definition ServiceStateFailed : string := "Failed".

(** [ec2.ServiceConfiguration], the fields the refresh looks at. *)
Record ServiceConfiguration := { sc_ServiceId : string; sc_ServiceState : string }.

(** Answer of DescribeVpcEndpointServiceConfigurations for one id. *)
Inductive DescribeResp :=
  | DescErr (e : AwsErr)
  | DescOk (cfg : ServiceConfiguration).

(** The [interface{}] value of a StateRefreshFunc. *)
Inductive RObj := RNil | RFalse | RCfg (cfg : ServiceConfiguration).

(** Result [(interface{}, string, error)] of a StateRefreshFunc. *)
Record RefreshResult := { rr_obj : RObj; rr_state : string; rr_err : option Err }.

(** [vpcEndpointServiceStateRefresh conn svcId ()], given the answer of
    the describe call it issues. *)
Definition vpcEndpointServiceStateRefresh (resp : DescribeResp) : RefreshResult :=
  match resp with
  | DescErr e =>
      if isNotFound e then {| rr_obj := RFalse; rr_state := ServiceStateDeleted; rr_err := None |}
      else {| rr_obj := RNil; rr_state := ""; rr_err := Some (EAws e) |}
  | DescOk svcCfg =>
      let state := sc_ServiceState svcCfg in
      if bool_decide (state = ServiceStateFailed) then
        {| rr_obj := RNil; rr_state := state; rr_err := Some EFailedState |}
      else {| rr_obj := RCfg svcCfg; rr_state := state; rr_err := None |}
  end.

(* ------------------------------------------------------------------ *)
(** ** The SDK poller [resource.StateChangeConf.WaitForState]

    Model of helper/resource (terraform-plugin-sdk v2), which is not part
    of this repository: the refresh function is called at successive
    ticks [k]; [fuel] is the number of refreshes that fit in [Timeout]
    (Delay, MinTimeout and back-off only decide that number).
    [ContinuousTargetOccurence] is 1 and [NotFoundChecks] is 20. *)
Definition NotFoundChecks : nat := 20.

Fixpoint waitForState (pending target : list string) (refresh : nat -> RefreshResult)
    (k notfoundTick fuel : nat) (lastState : string) : Err + RObj :=
  match fuel with
  | O => inl (ETimeout lastState)
  | S fuel' =>
      let r := refresh k in
      match rr_err r with
      | Some e => inl e
      | None =>
          match rr_obj r with
          | RNil =>
              if bool_decide (target = []) then inr RNil
              else if bool_decide (NotFoundChecks < S notfoundTick) then inl ENotFound
              else waitForState pending target refresh (S k) (S notfoundTick) fuel' (rr_state r)
          | obj =>
              if bool_decide (rr_state r ∈ target) then inr obj
              else if bool_decide (rr_state r ∈ pending) then
                waitForState pending target refresh (S k) 0 fuel' (rr_state r)
              else if bool_decide (pending = []) then
                waitForState pending target refresh (S k) 0 fuel' (rr_state r)
              else inl (EUnexpectedState (rr_state r))
          end
      end
  end.

Definition WaitForState (pending target : list string) (refresh : nat -> RefreshResult)
    (fuel : nat) : Err + RObj :=
  waitForState pending target refresh 0 0 fuel "".

(* ------------------------------------------------------------------ *)
(** ** Operations: a state and error monad over a call trace *)

(** Calls the operations issue, in order. *)
Inductive Event :=
  | EvCreate (req : CreateVpcEndpointServiceConfigurationInput)
  | EvSetId (id : string)                         (** d.SetId *)
  | EvWait (pending target : list string) (id : string) (** stateConf.WaitForState *)
  | EvModifyCfg (req : ModifyVpcEndpointServiceConfigurationInput)
  | EvModifyPerm (req : ModifyVpcEndpointServicePermissionsInput)
  | EvUpdateTags (id : string)
  | EvDescribe (id : string)                      (** describe in Read *)
  | EvDescribePerms (id : string)
  | EvDelete (id : string).

(** Persisted resource id ([d.Id()]) and the calls issued so far. *)
Record St := { st_id : string; st_trace : list Event }.

Definition M (A : Type) : Type := St -> (Err + A) * St.

Global Instance M_ret : MRet M := fun A x s => (inr x, s).
Global Instance M_bind : MBind M := fun A B f m s =>
  match m s with
  | (inl e, s') => (inl e, s')
  | (inr x, s') => f x s'
  end.

Definition throw {A} (e : Err) : M A := fun s => (inl e, s).
Definition getId : M string := fun s => (inr (st_id s), s).
Definition setId (i : string) : M unit :=
  fun s => (inr (), {| st_id := i; st_trace := st_trace s ++ [EvSetId i] |}).
Definition emit (ev : Event) : M unit :=
  fun s => (inr (), {| st_id := st_id s; st_trace := st_trace s ++ [ev] |}).

(** Answers of the remote API.  [e_refresh k] is the answer to the
    [k]-th describe call of a polling run, [e_fuel] the number of
    refreshes within the poller's timeout; [e_read_describe] answers the
    describe call of Read and [e_read_rest] is the outcome of the rest of
    Read (setting attributes, DescribeVpcEndpointServicePermissions). *)
Record Env := {
  e_create : CreateVpcEndpointServiceConfigurationInput -> AwsErr + ServiceConfiguration;
  e_refresh : nat -> DescribeResp;
  e_fuel : nat;
  e_modify_cfg : ModifyVpcEndpointServiceConfigurationInput -> option AwsErr;
  e_modify_perm : ModifyVpcEndpointServicePermissionsInput -> option AwsErr;
  e_update_tags : option Err;
  e_read_describe : DescribeResp;
  e_read_rest : option Err;
  e_delete : option AwsErr
}.

Section VpcEndpointService.

Variable env : Env.

Definition fromAws (r : option AwsErr) (ctx : string) : M unit :=
  match r with Some e => throw (EWrap ctx (EAws e)) | None => mret () end.

(** [d.GetOk] on a string attribute: set when not the zero value. *)
Definition getOkString (v : string) : option string :=
  if bool_decide (v = "") then None else Some v.

(** [d.GetOk] on a set attribute followed by [v.Len() > 0]. *)
Definition getOkSet (v : gset string) : option (gset string) :=
  if bool_decide (0 < size v) then Some v else None.

Definition createInput (d : ResourceData) : CreateVpcEndpointServiceConfigurationInput :=
  let n := d_new d in
  {| cr_AcceptanceRequired := acceptance_required n;
     cr_TagSpecifications := tags n;
     cr_PrivateDnsName := getOkString (private_dns_name n);
     cr_GatewayLoadBalancerArns := expandStringSet <$> getOkSet (gateway_load_balancer_arns n);
     cr_NetworkLoadBalancerArns := expandStringSet <$> getOkSet (network_load_balancer_arns n) |}.

Definition PendingAvailable := [ServiceStatePending].
Definition TargetAvailable := [ServiceStateAvailable].
Definition PendingDeletion := [ServiceStateAvailable; ServiceStateDeleting].
Definition TargetDeletion := [ServiceStateDeleted].

Definition refreshStream (k : nat) : RefreshResult :=
  vpcEndpointServiceStateRefresh (e_refresh env k).

Definition vpcEndpointServiceWaitUntilAvailable : M unit :=
  id ← getId;
  emit (EvWait PendingAvailable TargetAvailable id);;
  match WaitForState PendingAvailable TargetAvailable refreshStream (e_fuel env) with
  | inl e => throw (EWrap "Error waiting for VPC Endpoint Service to become available" e)
  | inr _ => mret ()
  end.

Definition waitForVpcEndpointServiceDeletion : M unit :=
  id ← getId;
  emit (EvWait PendingDeletion TargetDeletion id);;
  match WaitForState PendingDeletion TargetDeletion refreshStream (e_fuel env) with
  | inl e => throw e
  | inr _ => mret ()
  end.

Definition terminalStates := [ServiceStateDeleted; ServiceStateDeleting; ServiceStateFailed].

Definition resourceAwsVpcEndpointServiceRead : M unit :=
  id ← getId;
  emit (EvDescribe id);;
  let r := vpcEndpointServiceStateRefresh (e_read_describe env) in
  match rr_err r with
  | Some e =>
      if bool_decide (rr_state r ≠ ServiceStateFailed)
      then throw (EWrap "error reading VPC Endpoint Service" e) else mret ()
  | None => mret ()
  end;;
  if bool_decide (rr_state r ∈ terminalStates) then setId ""
  else
    emit (EvDescribePerms id);;
    match e_read_rest env with Some e => throw e | None => mret () end.

Definition resourceAwsVpcEndpointServiceCreate (d : ResourceData) : M unit :=
  let req := createInput d in
  emit (EvCreate req);;
  match e_create env req with
  | inl e => throw (EWrap "Error creating VPC Endpoint Service configuration" (EAws e))
  | inr resp =>
      setId (sc_ServiceId resp);;
      vpcEndpointServiceWaitUntilAvailable;;
      match getOkSet (allowed_principals (d_new d)) with
      | Some v =>
          id ← getId;
          let modifyPermReq :=
            {| mp_ServiceId := id; mp_AddAllowedPrincipals := Some (expandStringSet v);
               mp_RemoveAllowedPrincipals := None |} in
          emit (EvModifyPerm modifyPermReq);;
          fromAws (e_modify_perm env modifyPermReq) "error adding VPC Endpoint Service permissions"
      | None => mret ()
      end;;
      resourceAwsVpcEndpointServiceRead
  end.

(** [d.HasChanges("acceptance_required", "gateway_load_balancer_arns",
    "network_load_balancer_arns", "private_dns_name")]. *)
Definition configHasChanges (d : ResourceData) : bool :=
  let o := d_old d in let n := d_new d in
  bool_decide (acceptance_required o ≠ acceptance_required n)
  || setHasChange (gateway_load_balancer_arns o) (gateway_load_balancer_arns n)
  || setHasChange (network_load_balancer_arns o) (network_load_balancer_arns n)
  || bool_decide (private_dns_name o ≠ private_dns_name n).

Definition modifyCfgInput (d : ResourceData) (id : string)
    : ModifyVpcEndpointServiceConfigurationInput :=
  let o := d_old d in let n := d_new d in
  let '(addG, remG) := setVpcEndpointServiceUpdateLists
      (gateway_load_balancer_arns o) (gateway_load_balancer_arns n) None None in
  let '(addN, remN) := setVpcEndpointServiceUpdateLists
      (network_load_balancer_arns o) (network_load_balancer_arns n) None None in
  {| mc_ServiceId := id;
     mc_PrivateDnsName :=
       if bool_decide (private_dns_name o ≠ private_dns_name n)
       then Some (private_dns_name n) else None;
     mc_AcceptanceRequired :=
       if bool_decide (acceptance_required o ≠ acceptance_required n)
       then Some (acceptance_required n) else None;
     mc_AddGatewayLoadBalancerArns := addG;
     mc_RemoveGatewayLoadBalancerArns := remG;
     mc_AddNetworkLoadBalancerArns := addN;
     mc_RemoveNetworkLoadBalancerArns := remN |}.

Definition modifyPermInput (d : ResourceData) (id : string)
    : ModifyVpcEndpointServicePermissionsInput :=
  let '(add, rem) := setVpcEndpointServiceUpdateLists
      (allowed_principals (d_old d)) (allowed_principals (d_new d)) None None in
  {| mp_ServiceId := id; mp_AddAllowedPrincipals := add; mp_RemoveAllowedPrincipals := rem |}.

Definition resourceAwsVpcEndpointServiceUpdate (d : ResourceData) : M unit :=
  (if configHasChanges d then
     id ← getId;
     let modifyCfgReq := modifyCfgInput d id in
     emit (EvModifyCfg modifyCfgReq);;
     fromAws (e_modify_cfg env modifyCfgReq) "Error modifying VPC Endpoint Service configuration";;
     vpcEndpointServiceWaitUntilAvailable
   else mret ());;
  (if setHasChange (allowed_principals (d_old d)) (allowed_principals (d_new d)) then
     id ← getId;
     let modifyPermReq := modifyPermInput d id in
     emit (EvModifyPerm modifyPermReq);;
     fromAws (e_modify_perm env modifyPermReq) "Error modifying VPC Endpoint Service permissions"
   else mret ());;
  (if bool_decide (tags (d_old d) ≠ tags (d_new d)) then
     id ← getId;
     emit (EvUpdateTags id);;
     match e_update_tags env with
     | Some e => throw (EWrap "error updating EC2 VPC Endpoint Service tags" e)
     | None => mret ()
     end
   else mret ());;
  resourceAwsVpcEndpointServiceRead.

(** [fmt.Errorf(ctx, err)] around a failing step. *)
Definition wrapErr {A} (ctx : string) (m : M A) : M A :=
  fun s => match m s with
           | (inl e, s') => (inl (EWrap ctx e), s')
           | r => r
           end.

Definition resourceAwsVpcEndpointServiceDelete : M unit :=
  id ← getId;
  emit (EvDelete id);;
  match e_delete env with
  | Some e =>
      if isNotFound e then mret ()
      else throw (EWrap "Error deleting VPC Endpoint Service" (EAws e))
  | None => mret ()
  end;;
  wrapErr "Error waiting for VPC Endpoint Service to delete" waitForVpcEndpointServiceDeletion.

End VpcEndpointService.

(** [ec2.AllowedPrincipal]. *)
Record AllowedPrincipal := {
  ap_Principal : option string;
  ap_PrincipalType : option string
}.

(** [flattenVpcEndpointServiceAllowedPrincipals]: the non-nil principals,
    collected in order into [vPrincipals], as a set. *)
Definition flattenVpcEndpointServiceAllowedPrincipals (allowedPrincipals : list AllowedPrincipal)
    : gset string :=
  list_to_set
    (foldl (fun vPrincipals allowedPrincipal =>
              match ap_Principal allowedPrincipal with
              | Some v => vPrincipals ++ [v]
              | None => vPrincipals
              end) [] allowedPrincipals).

(** [ec2.PrivateDnsNameConfiguration]; [None] is a nil field. *)
Record PrivateDnsNameConfiguration := {
  pdc_Name : option string;
  pdc_State : option string;
  pdc_Type : option string;
  pdc_Value : option string
}.

(** [if v := field; v != nil { tfMap[k] = aws.StringValue(v) }]. *)
Definition setIfNotNil (k : string) (v : option string) (tfMap : gmap string string)
    : gmap string string :=
  match v with Some x => <[k := x]> tfMap | None => tfMap end.

(** [flattenPrivateDnsNameConfiguration]; [None] is the nil slice. *)
Definition flattenPrivateDnsNameConfiguration
    (privateDnsNameConfiguration : option PrivateDnsNameConfiguration)
    : option (list (gmap string string)) :=
  match privateDnsNameConfiguration with
  | None => None
  | Some c =>
      let tfMap := setIfNotNil "value" (pdc_Value c)
                     (setIfNotNil "type" (pdc_Type c)
                       (setIfNotNil "state" (pdc_State c)
                         (setIfNotNil "name" (pdc_Name c) ∅))) in
      if bool_decide (size tfMap = 0) then None else Some [tfMap]
  end.

(* ------------------------------------------------------------------ *)
(** ** S3 object copy *)

Module S3ObjectCopy.

(** One element of the [grant] set, a [map[string]interface{}]: a field is
    [None] when the key is absent or not a string; [g_permissions] is
    [None] when "permissions" does not hold a [*schema.Set] (the
    unchecked type assertion then panics). *)
Record GrantMap := {
  g_email : option string;
  g_id : option string;
  g_type : option string;
  g_uri : option string;
  g_permissions : option (gset string)
}.

Global Instance GrantMap_eq_dec : EqDecision GrantMap.
Proof. solve_decision. Defined.

(** Elements of the list of the grant set: a map, or anything else (skipped). *)
Inductive TfElem := TfMap (m : GrantMap) | TfOther.

Global Instance TfElem_eq_dec : EqDecision TfElem.
Proof. solve_decision. Defined.

(** Attribute values of the resource's schema; [AGrants] is the [grant]
    set of nested resources, given by its [List()]. *)
Inductive AttrVal :=
  | AStr (s : string)
  | ABool (b : bool)
  | AMap (m : gmap string string)
  | ASet (s : gset string)
  | AGrants (l : list TfElem)
  | ANull.

Global Instance AttrVal_eq_dec : EqDecision AttrVal.
Proof. solve_decision. Defined.

(** The zero value of each type ([d.GetOk] reports those as unset). *)
Definition isZero (v : AttrVal) : bool :=
  match v with
  | AStr s => bool_decide (s = "")
  | ABool b => negb b
  | AMap m => bool_decide (m = ∅)
  | ASet s => bool_decide (s = ∅)
  | AGrants l => bool_decide (l = [])
  | ANull => true
  end.

(** [*schema.ResourceData]: prior and planned attribute maps. *)
Record ResourceData := { r_old : gmap string AttrVal; r_new : gmap string AttrVal }.

Definition get (d : ResourceData) (k : string) : AttrVal := default ANull (r_new d !! k).
Definition getOk (d : ResourceData) (k : string) : bool := negb (isZero (get d k)).
Definition hasChange (d : ResourceData) (k : string) : bool :=
  bool_decide (default ANull (r_old d !! k) ≠ get d k).
Definition hasChanges (d : ResourceData) (ks : list string) : bool := existsb (hasChange d) ks.
Definition getString (d : ResourceData) (k : string) : string :=
  match get d k with AStr s => s | _ => "" end.
Definition getBool (d : ResourceData) (k : string) : bool :=
  match get d k with ABool b => b | _ => false end.

(** s3.Type* and s3.Permission* constants. *)
Definition TypeAmazonCustomerByEmail : string := "AmazonCustomerByEmail".
Definition TypeCanonicalUser : string := "CanonicalUser".
Definition PermissionFullControl : string := "FULL_CONTROL".
Definition PermissionRead : string := "READ".
Definition PermissionReadAcp : string := "READ_ACP".
Definition PermissionWriteAcp : string := "WRITE_ACP".

(** [v, ok := tfMap[k].(string)] with [ok] and [v] non-empty. *)
Definition nonEmpty (v : option string) : option string :=
  match v with Some x => if bool_decide (x = "") then None else Some x | None => None end.

(** [expandS3Grant]: [None] is a panic (dereference of a nil [Type],
    [EmailAddress], [ID] or [URI] of the grantee); a nil [tfMap] gives the
    empty string. *)
Definition expandS3Grant (tfMap : option GrantMap) : option string :=
  match tfMap with
  | None => Some ""
  | Some m =>
      match nonEmpty (g_type m) with
      | None => None
      | Some t =>
          if bool_decide (t = TypeAmazonCustomerByEmail) then
            String.append "emailaddress=" <$> nonEmpty (g_email m)
          else if bool_decide (t = TypeCanonicalUser) then
            String.append "id=" <$> nonEmpty (g_id m)
          else String.append "uri=" <$> nonEmpty (g_uri m)
      end
  end.

(** The four slices [expandS3Grants] accumulates. *)
Record GrantLists := {
  gl_FullControl : list string;
  gl_Read : list string;
  gl_ReadACP : list string;
  gl_WriteACP : list string
}.

Definition addGrant (perm v : string) (acc : GrantLists) : GrantLists :=
  if bool_decide (perm = PermissionFullControl) then
    {| gl_FullControl := gl_FullControl acc ++ [v]; gl_Read := gl_Read acc;
       gl_ReadACP := gl_ReadACP acc; gl_WriteACP := gl_WriteACP acc |}
  else if bool_decide (perm = PermissionRead) then
    {| gl_FullControl := gl_FullControl acc; gl_Read := gl_Read acc ++ [v];
       gl_ReadACP := gl_ReadACP acc; gl_WriteACP := gl_WriteACP acc |}
  else if bool_decide (perm = PermissionReadAcp) then
    {| gl_FullControl := gl_FullControl acc; gl_Read := gl_Read acc;
       gl_ReadACP := gl_ReadACP acc ++ [v]; gl_WriteACP := gl_WriteACP acc |}
  else if bool_decide (perm = PermissionWriteAcp) then
    {| gl_FullControl := gl_FullControl acc; gl_Read := gl_Read acc;
       gl_ReadACP := gl_ReadACP acc; gl_WriteACP := gl_WriteACP acc ++ [v] |}
  else acc.

(** The inner loop over the permissions of one grant. *)
Fixpoint expandGrantPerms (tfMap : GrantMap) (perms : list string) (acc : GrantLists)
    : option GrantLists :=
  match perms with
  | [] => Some acc
  | perm :: perms' =>
      v ← expandS3Grant (Some tfMap);
      expandGrantPerms tfMap perms' (if bool_decide (v ≠ "") then addGrant perm v acc else acc)
  end.

(** The outer loop over the grants. *)
Fixpoint expandGrantList (tfList : list TfElem) (acc : GrantLists) : option GrantLists :=
  match tfList with
  | [] => Some acc
  | TfOther :: l => expandGrantList l acc
  | TfMap m :: l =>
      perms ← g_permissions m;
      acc' ← expandGrantPerms m (elements perms) acc;
      expandGrantList l acc'
  end.

(** [strings.Join(l, sep)]. *)
Fixpoint join (l : list string) (sep : string) : string :=
  match l with
  | [] => EmptyString
  | [x] => x
  | x :: l' => String.append x (String.append sep (join l' sep))
  end.

(** [if len(l) > 0 { field = aws.String(strings.Join(l, ",")) }]. *)
Definition joinedField (l : list string) : option string :=
  if bool_decide (0 < length l) then Some (join l ",") else None.

Record s3Grants := {
  gs_FullControl : option string;
  gs_Read : option string;
  gs_ReadACP : option string;
  gs_WriteACP : option string
}.

(** [expandS3Grants]: the outer [None] is a panic, the inner one the nil
    pointer returned for an empty list. *)
Definition expandS3Grants (tfList : list TfElem) : option (option s3Grants) :=
  if bool_decide (length tfList = 0) then Some None
  else
    acc ← expandGrantList tfList
            {| gl_FullControl := []; gl_Read := []; gl_ReadACP := []; gl_WriteACP := [] |};
    Some (Some {| gs_FullControl := joinedField (gl_FullControl acc);
                  gs_Read := joinedField (gl_Read acc);
                  gs_ReadACP := joinedField (gl_ReadACP acc);
                  gs_WriteACP := joinedField (gl_WriteACP acc) |}).

(** An S3 request failure: HTTP status and error code. *)
Record S3Err := { s3_status : nat; s3_code : string }.

(** Failures: an S3 error, an error wrapped with a context, or a run-time
    panic (a nil pointer dereference), which is not an error return. *)
Inductive Err := E3Aws (e : S3Err) | E3Wrap (context : string) (e : Err) | E3Panic (what : string).

(** [s3.CopyObjectInput] as DoCopy fills it. The [*time.Time] fields built
    by [expandS3ObjectDate] (defined outside these files) hold the RFC 3339
    text they are parsed from; [co_Metadata] holds the metadata map and
    [co_Tagging] the tag map that [keyvaluetags] URL-encodes. *)
Record CopyObjectInput := {
  co_Bucket : string;
  co_Key : string;
  co_CopySource : string;
  co_ACL : option string;
  co_CacheControl : option string;
  co_ContentDisposition : option string;
  co_ContentEncoding : option string;
  co_ContentLanguage : option string;
  co_ContentType : option string;
  co_CopySourceIfMatch : option string;
  co_CopySourceIfModifiedSince : option string;
  co_CopySourceIfNoneMatch : option string;
  co_CopySourceIfUnmodifiedSince : option string;
  co_SSECustomerAlgorithm : option string;
  co_SSECustomerKey : option string;
  co_SSECustomerKeyMD5 : option string;
  co_ExpectedBucketOwner : option string;
  co_ExpectedSourceBucketOwner : option string;
  co_Expires : option string;
  co_GrantFullControl : option string;
  co_GrantRead : option string;
  co_GrantReadACP : option string;
  co_GrantWriteACP : option string;
  co_SSEKMSEncryptionContext : option string;
  co_SSEKMSKeyId : option string;
  co_Metadata : option (gmap string string);
  co_MetadataDirective : option string;
  co_ObjectLockLegalHoldStatus : option string;
  co_ObjectLockMode : option string;
  co_ObjectLockRetainUntilDate : option string;
  co_RequestPayer : option string;
  co_ServerSideEncryption : option string;
  co_CopySourceSSECustomerAlgorithm : option string;
  co_CopySourceSSECustomerKey : option string;
  co_CopySourceSSECustomerKeyMD5 : option string;
  co_StorageClass : option string;
  co_TaggingDirective : option string;
  co_Tagging : option (gmap string string);
  co_WebsiteRedirectLocation : option string
}.

Inductive Event :=
  | EvHeadObject (bucket key : string)
  | EvListTags (bucket key : string)
  | EvCopyObject (input : CopyObjectInput)
  | EvSetId (id : string)
  | EvBucketObjectRead                        (** resourceAwsS3BucketObjectRead *)
  | EvDeleteAllObjectVersions (bucket key : string) (force : bool)
  | EvDeleteObjectVersion (bucket key version : string).

Record St := { st_id : string; st_trace : list Event }.

Definition M (A : Type) : Type := St -> (Err + A) * St.

Global Instance M_ret : MRet M := fun A x s => (inr x, s).
Global Instance M_bind : MBind M := fun A B f m s =>
  match m s with
  | (inl e, s') => (inl e, s')
  | (inr x, s') => f x s'
  end.

Definition throw {A} (e : Err) : M A := fun s => (inl e, s).
Definition setId (i : string) : M unit :=
  fun s => (inr (), {| st_id := i; st_trace := st_trace s ++ [EvSetId i] |}).
Definition emit (ev : Event) : M unit :=
  fun s => (inr (), {| st_id := st_id s; st_trace := st_trace s ++ [ev] |}).

(** Answers of the S3 API; [e_read_rest] is the outcome of Read after a
    successful HeadObject, [e_object_read] that of
    resourceAwsS3BucketObjectRead, [e_delete] that of the delete helpers. *)
Record Env := {
  e_head : string -> string -> option S3Err;
  e_read_rest : option Err;
  e_copy : CopyObjectInput -> option S3Err;
  e_object_read : option Err;
  e_delete : option S3Err
}.

(** [url.QueryEscape]: the bytes A-Z, a-z, 0-9, '-', '_', '.' and '~' are
    kept, a space becomes '+', and every other byte becomes '%' followed by
    two upper-case hexadecimal digits. *)
Definition upperhex (n : nat) : ascii :=
  ascii_of_nat (if bool_decide (n < 10) then 48 + n else 55 + n).

Definition isUnreserved (c : ascii) : bool :=
  let n := nat_of_ascii c in
  bool_decide (65 <= n <= 90 ∨ 97 <= n <= 122 ∨ 48 <= n <= 57 ∨
               n = 45 ∨ n = 95 ∨ n = 46 ∨ n = 126).

Fixpoint queryEscape (s : string) : string :=
  match s with
  | EmptyString => EmptyString
  | String c s' =>
      if isUnreserved c then String c (queryEscape s')
      else if bool_decide (c = " "%char) then String "+" (queryEscape s')
      else String "%" (String (upperhex (nat_of_ascii c / 16))
                         (String (upperhex (nat_of_ascii c mod 16)) (queryEscape s')))
  end.

(** [strings.TrimLeft(key, "/")]. *)
Fixpoint trimLeftSlash (s : string) : string :=
  match s with
  | EmptyString => EmptyString
  | String c s' => if bool_decide (c = "/"%char) then trimLeftSlash s' else s
  end.

(** [regexp.MustCompile(`/+`).ReplaceAllString(s, "/")]: each maximal run
    of '/' is one match; [inRun] is set inside a run already replaced. *)
Fixpoint replaceSlashRuns (inRun : bool) (s : string) : string :=
  match s with
  | EmptyString => EmptyString
  | String c s' =>
      if bool_decide (c = "/"%char) then
        if inRun then replaceSlashRuns true s' else String "/" (replaceSlashRuns true s')
      else String c (replaceSlashRuns false s')
  end.

Definition normalizeKey (key : string) : string :=
  replaceSlashRuns false (trimLeftSlash key).

Section Ops.

Variable env : Env.

Definition resourceAwsS3ObjectCopyRead (d : ResourceData) : M unit :=
  let bucket := getString d "bucket" in
  let key := getString d "key" in
  emit (EvHeadObject bucket key);;
  match e_head env bucket key with
  | Some err => if bool_decide (s3_status err = 404) then setId "" else throw (E3Aws err)
  | None =>
      emit (EvListTags bucket key);;
      match e_read_rest env with Some e => throw e | None => mret () end
  end.

Definition optString (d : ResourceData) (k : string) : option string :=
  if getOk d k then Some (getString d k) else None.

Definition getMap (d : ResourceData) (k : string) : gmap string string :=
  match get d k with AMap m => m | _ => ∅ end.

Definition getGrants (d : ResourceData) : list TfElem :=
  match get d "grant" with AGrants l => l | _ => [] end.

(** [s3.ServerSideEncryptionAwsKms]. *)
Definition ServerSideEncryptionAwsKms : string := "aws:kms".

(** The [grant] step of DoCopy ([GetOk] of a set already means [Len() > 0]):
    [None] is a panic, in [expandS3Grants] or on a field of the nil
    [*s3Grants] it returns; [Some None] means the step is skipped. *)
Definition grantFields (d : ResourceData) : option (option s3Grants) :=
  if getOk d "grant" then
    match expandS3Grants (getGrants d) with Some (Some g) => Some (Some g) | _ => None end
  else Some None.

(** The request DoCopy builds, in the order of the source; [None] when
    building it panics. *)
Definition copyObjectInput (d : ResourceData) : option CopyObjectInput :=
  grants ← grantFields d;
  Some {| co_Bucket := getString d "bucket";
          co_Key := getString d "key";
          co_CopySource := queryEscape (getString d "source");
          co_ACL := match grants with Some _ => None | None => optString d "acl" end;
          co_CacheControl := optString d "cache_control";
          co_ContentDisposition := optString d "content_disposition";
          co_ContentEncoding := optString d "content_encoding";
          co_ContentLanguage := optString d "content_language";
          co_ContentType := optString d "content_type";
          co_CopySourceIfMatch := optString d "copy_if_match";
          co_CopySourceIfModifiedSince := optString d "copy_if_modified_since";
          co_CopySourceIfNoneMatch := optString d "copy_if_none_match";
          co_CopySourceIfUnmodifiedSince := optString d "copy_if_unmodified_since";
          co_SSECustomerAlgorithm := optString d "customer_algorithm";
          co_SSECustomerKey := optString d "customer_key";
          co_SSECustomerKeyMD5 := optString d "customer_key_md5";
          co_ExpectedBucketOwner := optString d "expected_bucket_owner";
          co_ExpectedSourceBucketOwner := optString d "expected_source_bucket_owner";
          co_Expires := optString d "expires";
          co_GrantFullControl := grants ≫= gs_FullControl;
          co_GrantRead := grants ≫= gs_Read;
          co_GrantReadACP := grants ≫= gs_ReadACP;
          co_GrantWriteACP := grants ≫= gs_WriteACP;
          co_SSEKMSEncryptionContext := optString d "kms_encryption_context";
          co_SSEKMSKeyId := optString d "kms_key_id";
          co_Metadata := if getOk d "metadata" then Some (getMap d "metadata") else None;
          co_MetadataDirective := optString d "metadata_directive";
          co_ObjectLockLegalHoldStatus := optString d "object_lock_legal_hold_status";
          co_ObjectLockMode := optString d "object_lock_mode";
          co_ObjectLockRetainUntilDate := optString d "object_lock_retain_until_date";
          co_RequestPayer := optString d "request_payer";
          co_ServerSideEncryption :=
            match optString d "server_side_encryption" with
            | Some v => Some v
            | None => if getOk d "kms_key_id" then Some ServerSideEncryptionAwsKms else None
            end;
          co_CopySourceSSECustomerAlgorithm := optString d "source_customer_algorithm";
          co_CopySourceSSECustomerKey := optString d "source_customer_key";
          co_CopySourceSSECustomerKeyMD5 := optString d "source_customer_key_md5";
          co_StorageClass := optString d "storage_class";
          co_TaggingDirective := optString d "tagging_directive";
          co_Tagging :=
            if bool_decide (0 < size (getMap d "tags")) then Some (getMap d "tags") else None;
          co_WebsiteRedirectLocation := optString d "website_redirect" |}.

Definition resourceAwsS3ObjectCopyDoCopy (d : ResourceData) : M unit :=
  match copyObjectInput d with
  | None => throw (E3Panic "expandS3Grants")
  | Some input =>
      emit (EvCopyObject input);;
      match e_copy env input with
      | Some e => throw (E3Wrap "Error copying S3 object" (E3Aws e))
      | None => mret ()
      end;;
      setId (getString d "key");;
      emit EvBucketObjectRead;;
      match e_object_read env with Some e => throw e | None => mret () end
  end.

Definition copyIfKeys : list string :=
  ["copy_if_match"; "copy_if_modified_since"; "copy_if_none_match"; "copy_if_unmodified_since"].

Definition updateArgs : list string :=
  ["acl"; "bucket"; "cache_control"; "content_disposition"; "content_encoding";
   "content_language"; "content_type"; "customer_algorithm"; "customer_key";
   "customer_key_md5"; "expected_bucket_owner"; "expected_source_bucket_owner";
   "expires"; "grant"; "key"; "kms_encryption_context"; "kms_key_id"; "metadata";
   "metadata_directive"; "object_lock_legal_hold_status"; "object_lock_mode";
   "object_lock_retain_until_date"; "request_payer"; "server_side_encryption";
   "source"; "source_customer_algorithm"; "source_customer_key";
   "source_customer_key_md5"; "storage_class"; "tagging_directive"; "tags";
   "website_redirect"].

Fixpoint updateCopyIf (d : ResourceData) (ks : list string) : M unit :=
  match ks with
  | [] =>
      if hasChanges d updateArgs then resourceAwsS3ObjectCopyDoCopy d else mret ()
  | k :: ks' => if getOk d k then resourceAwsS3ObjectCopyDoCopy d else updateCopyIf d ks'
  end.

Definition resourceAwsS3ObjectCopyUpdate (d : ResourceData) : M unit :=
  updateCopyIf d copyIfKeys.

Definition resourceAwsS3ObjectCopyDelete (d : ResourceData) : M unit :=
  let bucket := getString d "bucket" in
  let key := normalizeKey (getString d "key") in
  (if getOk d "version_id"
   then emit (EvDeleteAllObjectVersions bucket key (getBool d "force_destroy"))
   else emit (EvDeleteObjectVersion bucket key ""));;
  match e_delete env with
  | Some e => throw (E3Wrap "error deleting S3 Bucket Object" (E3Aws e))
  | None => mret ()
  end.

End Ops.

(** One clean-up step on a key, as the comment in Delete describes the
    service's URI cleaning: drop a leading '/', or merge two adjacent '/'. *)
Inductive slashStep : string -> string -> Prop :=
  | slash_leading s : slashStep (String "/" s) s
  | slash_double p q :
      slashStep (String.append p (String "/" (String "/" q))) (String.append p (String "/" q)).

Definition startsWithSlash (s : string) : bool :=
  match s with String c _ => bool_decide (c = "/"%char) | EmptyString => false end.

(** The string contains "//". *)
Fixpoint hasDoubleSlash (s : string) : bool :=
  match s with
  | String a t => (bool_decide (a = "/"%char) && startsWithSlash t) || hasDoubleSlash t
  | EmptyString => false
  end.

(** [strings.ToLower] on one ASCII character (metadata keys are HTTP
    header names, so ASCII). *)
Definition asciiToLower (c : ascii) : ascii :=
  let n := nat_of_ascii c in
  if bool_decide (65 <= n <= 90) then ascii_of_nat (n + 32) else c.

Fixpoint toLower (s : string) : string :=
  match s with
  | EmptyString => EmptyString
  | String c s' => String (asciiToLower c) (toLower s')
  end.

(** The loop of Read that moves every metadata entry to its lower-case key:
    [for k, v := range metadata { delete(metadata, k);
    metadata[strings.ToLower(k)] = v }].  [ks] is the order in which the
    range statement reaches keys; an entry no longer present when reached
    is not visited, and [v] is the value the entry holds at that time. *)
Fixpoint lowerMetadataKeys (ks : list string) (metadata : gmap string string)
    : gmap string string :=
  match ks with
  | [] => metadata
  | k :: ks' =>
      match metadata !! k with
      | Some v => lowerMetadataKeys ks' (<[toLower k := v]> (delete k metadata))
      | None => lowerMetadataKeys ks' metadata
      end
  end.

(** [strings.Trim] of the ETag in Read and DoCopy, with the cutset made of
    the double quote (character 34): TrimLeft, then TrimRight. *)
Definition quoteChar : ascii := ascii_of_nat 34.

Fixpoint trimLeftQuote (s : string) : string :=
  match s with
  | EmptyString => EmptyString
  | String c s' => if bool_decide (c = quoteChar) then trimLeftQuote s' else s
  end.

Fixpoint trimRightQuote (s : string) : string :=
  match s with
  | EmptyString => EmptyString
  | String c s' =>
      let r := trimRightQuote s' in
      if bool_decide (r = EmptyString ∧ c = quoteChar) then EmptyString else String c r
  end.

Definition trimETag (etag : string) : string := trimRightQuote (trimLeftQuote etag).

(** The grantee strings of the grants listing permission [p], in order. *)
Definition grantsWith (p : string) (tfList : list TfElem) : list string :=
  tfList ≫= fun e =>
    match e with
    | TfMap m =>
        match g_permissions m, expandS3Grant (Some m) with
        | Some ps, Some v => if bool_decide (p ∈ ps) then [v] else []
        | _, _ => []
        end
    | TfOther => []
    end.

(** A grant element lists permission [p]. *)
Definition listsPermission (p : string) (e : TfElem) : Prop :=
  match e with
  | TfMap m => match g_permissions m with Some ps => p ∈ ps | None => False end
  | TfOther => False
  end.

(** The slice [expandS3Grants] fills for permission [p]. *)
Definition glField (p : string) (acc : GrantLists) : list string :=
  if bool_decide (p = PermissionFullControl) then gl_FullControl acc
  else if bool_decide (p = PermissionRead) then gl_Read acc
  else if bool_decide (p = PermissionReadAcp) then gl_ReadACP acc
  else if bool_decide (p = PermissionWriteAcp) then gl_WriteACP acc
  else [].

(** A grant element on which [expandS3Grants] panics: its "permissions" is
    not a set, or the set is non-empty and [expandS3Grant] panics. *)
Definition grantPanics (e : TfElem) : Prop :=
  match e with
  | TfMap m =>
      match g_permissions m with
      | None => True
      | Some ps => ps ≠ ∅ ∧ expandS3Grant (Some m) = None
      end
  | TfOther => False
  end.

Definition startsWithQuote (s : string) : bool :=
  match s with String c _ => bool_decide (c = quoteChar) | EmptyString => false end.

Fixpoint endsWithQuote (s : string) : bool :=
  match s with
  | EmptyString => false
  | String c EmptyString => bool_decide (c = quoteChar)
  | String _ s' => endsWithQuote s'
  end.

(** Sample inputs. *)
Definition attrs (kvs : list (string * AttrVal)) : gmap string AttrVal := list_to_map kvs.

Definition dPlainCopy : ResourceData :=
  {| r_old := attrs [("bucket", AStr "dst"); ("key", AStr "//a//b/"); ("source", AStr "src/k")];
     r_new := attrs [("bucket", AStr "dst"); ("key", AStr "//a//b/"); ("source", AStr "src/k")] |}.

Definition envOk : Env :=
  {| e_head := fun _ _ => None; e_read_rest := None; e_copy := fun _ => None;
     e_object_read := None; e_delete := None |}.

Definition emptySt : St := {| st_id := "//a//b/"; st_trace := [] |}.

(** A grant list: a canonical user with FULL_CONTROL and READ, an element
    that is not a map, and a user by e-mail with READ. *)
Definition grantListSample : list TfElem :=
  [TfMap {| g_email := None; g_id := Some "abc"; g_type := Some TypeCanonicalUser;
            g_uri := None; g_permissions := Some {[PermissionRead; PermissionFullControl]} |};
   TfOther;
   TfMap {| g_email := Some "a@example.com"; g_id := None;
            g_type := Some TypeAmazonCustomerByEmail; g_uri := None;
            g_permissions := Some {[PermissionRead]} |}].

Definition grantsSample : s3Grants :=
  {| gs_FullControl := Some "id=abc";
     gs_Read := Some "id=abc,emailaddress=a@example.com";
     gs_ReadACP := None; gs_WriteACP := None |}.

(** A copy with an ACL and the grant list above. *)
Definition dGrantCopy : ResourceData :=
  {| r_old := ∅;
     r_new := attrs [("bucket", AStr "dst"); ("key", AStr "k"); ("source", AStr "src/k");
                     ("acl", AStr "private"); ("grant", AGrants grantListSample)] |}.

(** A copy whose only grant is a canonical user without an id. *)
Definition dGrantNoId : ResourceData :=
  {| r_old := ∅;
     r_new := attrs [("bucket", AStr "dst"); ("key", AStr "k"); ("source", AStr "src/k");
                     ("grant", AGrants [TfMap {| g_email := None; g_id := None;
                                                 g_type := Some TypeCanonicalUser; g_uri := None;
                                                 g_permissions := Some {[PermissionRead]} |}])] |}.

End S3ObjectCopy.


(* ------------------------------------------------------------------ *)
(** ** Observations on describe answers *)

(** The state label a describe answer carries, if any. *)
Definition describedState (r : DescribeResp) : option string :=
  match r with DescOk cfg => Some (sc_ServiceState cfg) | DescErr _ => None end.

(** The describe answer is the recognized not-found error. *)
Definition isNotFoundResp (r : DescribeResp) : bool :=
  match r with DescErr e => isNotFound e | DescOk _ => false end.

(** The first [n] answers of a polling run all carry a label of [labels]. *)
Definition allLabelled (env : Env) (labels : list string) (n : nat) : bool :=
  forallb (fun i => match describedState (e_refresh env i) with
                    | Some l => bool_decide (l ∈ labels)
                    | None => false
                    end) (seq 0 n).

(** A refresh answer on which the poller keeps waiting. *)
Definition waitingAt (pending target : list string) (refresh : nat -> RefreshResult)
    (i : nat) : Prop :=
  rr_err (refresh i) = None ∧ rr_obj (refresh i) ≠ RNil ∧
  rr_state (refresh i) ∈ pending ∧ rr_state (refresh i) ∉ target.

(** Sample remote answers used to exercise the theorems. *)
Definition cfgIn (state : string) : ServiceConfiguration :=
  {| sc_ServiceId := "vpce-svc-0123"; sc_ServiceState := state |}.

Definition envOf (refresh : nat -> DescribeResp) (fuel : nat) : Env :=
  {| e_create := fun _ => inr (cfgIn ServiceStatePending);
     e_refresh := refresh;
     e_fuel := fuel;
     e_modify_cfg := fun _ => None;
     e_modify_perm := fun _ => None;
     e_update_tags := None;
     e_read_describe := DescOk (cfgIn ServiceStateAvailable);
     e_read_rest := None;
     e_delete := None |}.

(** Pending, Pending, then Failed. *)
Definition envPendingThenFailed : Env :=
  envOf (fun k => if bool_decide (k < 2) then DescOk (cfgIn ServiceStatePending)
                  else DescOk (cfgIn ServiceStateFailed)) 120.

(** Available, Deleting, Deleting, then gone. *)
Definition envDeletingThenGone : Env :=
  envOf (fun k => match k with
                  | 0 => DescOk (cfgIn ServiceStateAvailable)
                  | 1 | 2 => DescOk (cfgIn ServiceStateDeleting)
                  | _ => DescErr {| aws_code := errCodeNotFound |}
                  end) 120.

Definition emptySt : St := {| st_id := "vpce-svc-0123"; st_trace := [] |}.

(** Every describe answer reads [Available]. *)
Definition envAvailable : Env :=
  envOf (fun _ => DescOk (cfgIn ServiceStateAvailable)) 120.

Definition svcP1P2 : VpcEndpointService :=
  {| acceptance_required := false;
     gateway_load_balancer_arns := ∅;
     network_load_balancer_arns := {["arn:aws:elasticloadbalancing:nlb-1"]};
     private_dns_name := "";
     allowed_principals := {["P1"; "P2"]};
     tags := ∅ |}.

(** allowed_principals goes from {P1, P2} to {P2, P3}; acceptance_required
    from false to true. *)
Definition dPrincipalsChange : ResourceData :=
  {| d_old := svcP1P2;
     d_new := {| acceptance_required := true;
                 gateway_load_balancer_arns := ∅;
                 network_load_balancer_arns := {["arn:aws:elasticloadbalancing:nlb-1"]};
                 private_dns_name := "";
                 allowed_principals := {["P2"; "P3"]};
                 tags := ∅ |} |}.

(** A request list field is absent or non-empty. *)
Definition listFieldOk (f : option (list string)) : Prop :=
  f = None ∨ ∃ l, f = Some l ∧ 0 < length l.

(** Every add/remove list a modify request carries is non-empty. *)
Definition requestListsOk (ev : Event) : Prop :=
  match ev with
  | EvModifyCfg r =>
      listFieldOk (mc_AddGatewayLoadBalancerArns r) ∧
      listFieldOk (mc_RemoveGatewayLoadBalancerArns r) ∧
      listFieldOk (mc_AddNetworkLoadBalancerArns r) ∧
      listFieldOk (mc_RemoveNetworkLoadBalancerArns r)
  | EvModifyPerm r =>
      listFieldOk (mp_AddAllowedPrincipals r) ∧ listFieldOk (mp_RemoveAllowedPrincipals r)
  | _ => True
  end.

Definition isModifyCall (ev : Event) : bool :=
  match ev with EvModifyCfg _ | EvModifyPerm _ => true | _ => false end.

(** None of the attributes behind a modify call changed. *)
Definition diffUnchanged (d : ResourceData) : Prop :=
  let o := d_old d in let n := d_new d in
  acceptance_required o = acceptance_required n ∧
  gateway_load_balancer_arns o = gateway_load_balancer_arns n ∧
  network_load_balancer_arns o = network_load_balancer_arns n ∧
  private_dns_name o = private_dns_name n ∧
  allowed_principals o = allowed_principals n.

(** Running [m] only appends events satisfying [P] to the trace. *)
Definition appendsOnly {A} (P : Event -> Prop) (m : M A) : Prop :=
  ∀ s, ∃ tr, st_trace (m s).2 = st_trace s ++ tr ∧ Forall P tr.

(** Running [m] leaves the persisted id as it was or clears it. *)
Definition keepsIdOrClears {A} (m : M A) : Prop :=
  ∀ s, st_id (m s).2 = st_id s ∨ st_id (m s).2 = "".

(** Pending, Pending, then Deleting. *)
Definition envPendingThenDeleting : Env :=
  envOf (fun k => if bool_decide (k < 2) then DescOk (cfgIn ServiceStatePending)
                  else DescOk (cfgIn ServiceStateDeleting)) 120.

(** The describe call of Read is throttled. *)
Definition envReadThrottled : Env :=
  {| e_create := fun _ => inr (cfgIn ServiceStatePending);
     e_refresh := fun _ => DescOk (cfgIn ServiceStateAvailable);
     e_fuel := 120;
     e_modify_cfg := fun _ => None;
     e_modify_perm := fun _ => None;
     e_update_tags := None;
     e_read_describe := DescErr {| aws_code := "RequestLimitExceeded" |};
     e_read_rest := None;
     e_delete := None |}.

(* ================================================================== *)
(** * Properties *)

Example ex_diff :
  setVpcEndpointServiceUpdateLists {["P1"; "P2"]} {["P2"; "P3"]} None None = (Some ["P3"], Some ["P1"]).
Proof. vm_compute. reflexivity. Qed.

Example ex_norm : S3ObjectCopy.normalizeKey "//a//b/" = "a/b/".
Proof. reflexivity. Qed.

Example ex_wait :
  WaitForState PendingAvailable TargetAvailable
    (fun k => vpcEndpointServiceStateRefresh
       (DescOk {| sc_ServiceId := "s"; sc_ServiceState := if bool_decide (k < 2) then "Pending" else "Failed" |})) 10
  = inl EFailedState.
Proof. vm_compute. reflexivity. Qed.


(* ------------------------------------------------------------------ *)
(** ** Set difference helper *)

Lemma fieldSet_update_list (x : gset string) :
  fieldSet (if bool_decide (0 < length (expandStringSet x))
            then Some (expandStringSet x) else None) = x.
Proof.
  unfold expandStringSet. case_bool_decide as Hlen; simpl.
  - apply list_to_set_elements_L.
  - assert (Hx : elements x = []) by (apply nil_length_inv; lia).
    apply elements_empty_inv, leibniz_equiv in Hx. by subst.
Qed.

Lemma update_list_none_or_nonempty (x : gset string) :
  (if bool_decide (0 < length (expandStringSet x)) then Some (expandStringSet x) else None) = None
  ∨ ∃ l, (if bool_decide (0 < length (expandStringSet x))
          then Some (expandStringSet x) else None) = Some l ∧ 0 < length l.
Proof. case_bool_decide; [right; eauto | left; done]. Qed.

(** The two lists denote the two differences, stay absent when the sets
    are equal, and are either absent or non-empty. *)
Lemma setVpcEndpointServiceUpdateLists_spec (o n : gset string) :
  let '(a, r) := setVpcEndpointServiceUpdateLists o n None None in
  fieldSet a = n ∖ o ∧ fieldSet r = o ∖ n ∧ (o = n → a = None ∧ r = None) ∧
  (a = None ∨ ∃ l, a = Some l ∧ 0 < length l) ∧
  (r = None ∨ ∃ l, r = Some l ∧ 0 < length l).
Proof.
  unfold setVpcEndpointServiceUpdateLists, setHasChange.
  case_bool_decide as Hch.
  - rewrite !fieldSet_update_list.
    split_and!; [done | done | intros ->; done
                | apply update_list_none_or_nonempty | apply update_list_none_or_nonempty].
  - subst. simpl. split_and!; [set_solver | set_solver | done | by left | by left].
Qed.

(** C1: the lists computed by [setVpcEndpointServiceUpdateLists] for a
    desired set [D] and an observed set [O] denote [D ∖ O] (add) and
    [O ∖ D] (remove); they are disjoint, applying them to [O] gives [D],
    and for [D = O] both stay absent (empty). *)
Theorem setVpcEndpointServiceUpdateLists_diff (D O : gset string) :
  let '(toAdd, toRemove) := setVpcEndpointServiceUpdateLists O D None None in
  fieldSet toAdd = D ∖ O ∧ fieldSet toRemove = O ∖ D ∧
  fieldSet toAdd ∩ fieldSet toRemove = ∅ ∧
  (O ∪ fieldSet toAdd) ∖ fieldSet toRemove = D ∧
  (D = O → toAdd = None ∧ toRemove = None).
Proof.
  unfold setVpcEndpointServiceUpdateLists, setHasChange.
  case_bool_decide as Hch.
  - rewrite !fieldSet_update_list.
    split_and!; [done | done | set_solver | | intros ->; done].
    apply set_eq. intros x. destruct (decide (x ∈ O)), (decide (x ∈ D)); set_solver.
  - subst. simpl.
    repeat split; set_solver.
Qed.

(* ------------------------------------------------------------------ *)
(** ** The poller *)

Section Poller.

Variables (pending target : list string) (refresh : nat -> RefreshResult).


Lemma waitForState_waiting_then_error n e :
  ∀ k nt fuel last,
  (∀ i, i < n → waitingAt pending target refresh (k + i)) → n < fuel →
  rr_err (refresh (k + n)) = Some e →
  waitForState pending target refresh k nt fuel last = inl e.
Proof.
  induction n as [|n IH]; intros k nt fuel last Hw Hlt He;
    (destruct fuel as [|fuel]; [lia|]); simpl.
  - rewrite Nat.add_0_r in He. by rewrite He.
  - destruct (Hw 0 ltac:(lia)) as (Herr & Hobj & Hin & Hnot).
    rewrite Nat.add_0_r in Herr, Hobj, Hin, Hnot. rewrite Herr.
    destruct (rr_obj (refresh k)) eqn:Eo; [done| |];
      rewrite (bool_decide_eq_false_2 _ Hnot), (bool_decide_eq_true_2 _ Hin);
      apply IH; try lia;
      [intros i Hi; replace (S k + i) with (k + S i) by lia; apply Hw; lia
      | by replace (S k + n) with (k + S n) by lia
      | intros i Hi; replace (S k + i) with (k + S i) by lia; apply Hw; lia
      | by replace (S k + n) with (k + S n) by lia].
Qed.

Lemma waitForState_waiting_then_target n obj :
  ∀ k nt fuel last,
  (∀ i, i < n → waitingAt pending target refresh (k + i)) → n < fuel →
  rr_err (refresh (k + n)) = None → rr_obj (refresh (k + n)) = obj → obj ≠ RNil →
  rr_state (refresh (k + n)) ∈ target →
  waitForState pending target refresh k nt fuel last = inr obj.
Proof.
  induction n as [|n IH]; intros k nt fuel last Hw Hlt He Ho Hnn Ht;
    (destruct fuel as [|fuel]; [lia|]); simpl.
  - rewrite Nat.add_0_r in He, Ho, Ht. rewrite He, Ho.
    destruct obj; [done| |]; by rewrite (bool_decide_eq_true_2 _ Ht).
  - destruct (Hw 0 ltac:(lia)) as (Herr & Hobj & Hin & Hnot).
    rewrite Nat.add_0_r in Herr, Hobj, Hin, Hnot. rewrite Herr.
    assert (Hw' : ∀ i, i < n → waitingAt pending target refresh (S k + i)).
    { intros i Hi; replace (S k + i) with (k + S i) by lia; apply Hw; lia. }
    replace (k + S n) with (S k + n) in * by lia.
    destruct (rr_obj (refresh k)) eqn:Eo; [done| |];
      rewrite (bool_decide_eq_false_2 _ Hnot), (bool_decide_eq_true_2 _ Hin);
      apply IH; auto; lia.
Qed.

(** The poller succeeds only on an error-free refresh whose label is a
    target (or, with no target, on a nil result). *)
Lemma waitForState_success_observed k nt fuel last obj :
  waitForState pending target refresh k nt fuel last = inr obj →
  ∃ i, rr_err (refresh i) = None ∧
       (rr_state (refresh i) ∈ target ∨ (target = [] ∧ rr_obj (refresh i) = RNil)).
Proof.
  revert k nt last. induction fuel as [|fuel IH]; intros k nt last H; simpl in H; [done|].
  destruct (rr_err (refresh k)) eqn:Ee; [done|].
  destruct (rr_obj (refresh k)) eqn:Eo.
  - case_bool_decide; [exists k; auto|].
    case_bool_decide; [done|]. eauto.
  - case_bool_decide; [exists k; auto|].
    case_bool_decide; [eauto|]. case_bool_decide; [eauto|done].
  - case_bool_decide; [exists k; auto|].
    case_bool_decide; [eauto|]. case_bool_decide; [eauto|done].
Qed.

End Poller.

(* ------------------------------------------------------------------ *)
(** ** The refresh function and the two pollers *)

Lemma allLabelled_waiting env labels target n :
  allLabelled env labels n = true → ServiceStateFailed ∉ labels →
  (∀ l, l ∈ labels → l ∉ target) →
  ∀ i, i < n → waitingAt labels target (refreshStream env) (0 + i).
Proof.
  intros Hall Hf Hdisj i Hi. simpl.
  unfold allLabelled in Hall. rewrite forallb_forall in Hall.
  specialize (Hall i (proj2 (in_seq n 0 i) ltac:(lia))).
  unfold waitingAt, refreshStream, vpcEndpointServiceStateRefresh.
  destruct (e_refresh env i) as [e|cfg]; simpl in Hall; [done|].
  apply bool_decide_eq_true_1 in Hall.
  rewrite bool_decide_eq_false_2 by (intros Heq; rewrite Heq in Hall; done).
  simpl. split_and!; auto; done.
Qed.

Lemma refresh_failed cfg :
  sc_ServiceState cfg = ServiceStateFailed →
  vpcEndpointServiceStateRefresh (DescOk cfg) =
    {| rr_obj := RNil; rr_state := ServiceStateFailed; rr_err := Some EFailedState |}.
Proof. intros H. unfold vpcEndpointServiceStateRefresh. rewrite H. done. Qed.

Lemma refresh_not_found e :
  isNotFound e = true →
  vpcEndpointServiceStateRefresh (DescErr e) =
    {| rr_obj := RFalse; rr_state := ServiceStateDeleted; rr_err := None |}.
Proof. intros H. simpl. by rewrite H. Qed.

(** C4: a refresh that reads the [Failed] label returns an error; so
    after any run of [Pending] answers, a [Failed] answer seen before the
    timeout makes the availability poller fail with the failed-state
    error at once, never with a timeout (or unexpected-state) error. *)
Theorem vpcEndpointServiceWaitUntilAvailable_failed (env : Env) (n : nat) (s : St)
  (Hpending : allLabelled env PendingAvailable n = true)
  (Hfailed : describedState (e_refresh env n) = Some ServiceStateFailed)
  (Htime : n < e_fuel env) :
  (∀ cfg, sc_ServiceState cfg = ServiceStateFailed →
     rr_err (vpcEndpointServiceStateRefresh (DescOk cfg)) = Some EFailedState) ∧
  WaitForState PendingAvailable TargetAvailable (refreshStream env) (e_fuel env)
    = inl EFailedState ∧
  (vpcEndpointServiceWaitUntilAvailable env s).1
    = inl (EWrap "Error waiting for VPC Endpoint Service to become available" EFailedState) ∧
  (∀ l, WaitForState PendingAvailable TargetAvailable (refreshStream env) (e_fuel env)
          ≠ inl (ETimeout l)).
Proof.
  assert (Hw : WaitForState PendingAvailable TargetAvailable (refreshStream env) (e_fuel env)
               = inl EFailedState).
  { unfold WaitForState.
    apply (waitForState_waiting_then_error _ _ _ n EFailedState 0); [| done |].
    - apply allLabelled_waiting; [done | | ].
      + unfold PendingAvailable. rewrite list_elem_of_singleton. done.
      + intros l. unfold PendingAvailable, TargetAvailable.
        rewrite !list_elem_of_singleton. intros ->. done.
    - simpl. unfold refreshStream.
      destruct (e_refresh env n) as [e|cfg]; simpl in Hfailed; [done|].
      injection Hfailed as Hf. by rewrite refresh_failed. }
  split_and!.
  - intros cfg Hc. by rewrite refresh_failed.
  - exact Hw.
  - unfold vpcEndpointServiceWaitUntilAvailable, mbind, M_bind, getId, emit. simpl.
    by rewrite Hw.
  - intros l. rewrite Hw. done.
Qed.

Lemma vpcEndpointServiceWaitUntilAvailable_failed_witness :
  allLabelled envPendingThenFailed PendingAvailable 2 = true ∧
  describedState (e_refresh envPendingThenFailed 2) = Some ServiceStateFailed ∧
  2 < e_fuel envPendingThenFailed ∧
  (vpcEndpointServiceWaitUntilAvailable envPendingThenFailed emptySt).1
    = inl (EWrap "Error waiting for VPC Endpoint Service to become available" EFailedState).
Proof.
  assert (H1 : allLabelled envPendingThenFailed PendingAvailable 2 = true)
    by (vm_compute; reflexivity).
  assert (H2 : describedState (e_refresh envPendingThenFailed 2) = Some ServiceStateFailed)
    by reflexivity.
  assert (H3 : 2 < e_fuel envPendingThenFailed) by (simpl; lia).
  split_and!; [exact H1 | exact H2 | exact H3 |].
  exact (proj1 (proj2 (proj2
    (vpcEndpointServiceWaitUntilAvailable_failed envPendingThenFailed 2 emptySt H1 H2 H3)))).
Defined.

(** C5: during deletion polling, a describe call failing with the
    not-found code makes the refresh report [Deleted] with no error, so the
    deletion poller (Pending = {Available, Deleting}, Target = {Deleted})
    succeeds on it after any run of [Available]/[Deleting] answers. *)
Theorem waitForVpcEndpointServiceDeletion_not_found (env : Env) (n : nat) (s : St)
  (Hpending : allLabelled env PendingDeletion n = true)
  (Hgone : isNotFoundResp (e_refresh env n) = true)
  (Htime : n < e_fuel env) :
  refreshStream env n = {| rr_obj := RFalse; rr_state := ServiceStateDeleted; rr_err := None |} ∧
  WaitForState PendingDeletion TargetDeletion (refreshStream env) (e_fuel env) = inr RFalse ∧
  (waitForVpcEndpointServiceDeletion env s).1 = inr ().
Proof.
  assert (Hr : refreshStream env n =
                 {| rr_obj := RFalse; rr_state := ServiceStateDeleted; rr_err := None |}).
  { unfold refreshStream. destruct (e_refresh env n) as [e|cfg]; simpl in Hgone; [|done].
    by rewrite refresh_not_found. }
  assert (Hw : WaitForState PendingDeletion TargetDeletion (refreshStream env) (e_fuel env)
               = inr RFalse).
  { unfold WaitForState.
    apply (waitForState_waiting_then_target _ _ _ n RFalse 0); simpl; rewrite ?Hr; try done.
    - apply allLabelled_waiting; [done | | ].
      + unfold PendingDeletion. rewrite !elem_of_cons. intros [H|[H|H]]; [done|done|].
        by apply not_elem_of_nil in H.
      + intros l Hl Ht. apply list_elem_of_singleton in Ht. subst l.
        unfold PendingDeletion in Hl. rewrite !elem_of_cons in Hl.
        destruct Hl as [H|[H|H]]; [done|done|]. by apply not_elem_of_nil in H.
    - by apply list_elem_of_singleton. }
  split_and!; [exact Hr | exact Hw |].
  unfold waitForVpcEndpointServiceDeletion, mbind, M_bind, getId, emit. simpl.
  by rewrite Hw.
Qed.

Lemma waitForVpcEndpointServiceDeletion_not_found_witness :
  allLabelled envDeletingThenGone PendingDeletion 3 = true ∧
  isNotFoundResp (e_refresh envDeletingThenGone 3) = true ∧
  3 < e_fuel envDeletingThenGone ∧
  (waitForVpcEndpointServiceDeletion envDeletingThenGone emptySt).1 = inr ().
Proof.
  assert (H1 : allLabelled envDeletingThenGone PendingDeletion 3 = true)
    by (vm_compute; reflexivity).
  assert (H2 : isNotFoundResp (e_refresh envDeletingThenGone 3) = true)
    by (vm_compute; reflexivity).
  assert (H3 : 3 < e_fuel envDeletingThenGone) by (simpl; lia).
  split_and!; [exact H1 | exact H2 | exact H3 |].
  exact (proj2 (proj2
    (waitForVpcEndpointServiceDeletion_not_found envDeletingThenGone 3 emptySt H1 H2 H3))).
Defined.

(* ------------------------------------------------------------------ *)
(** ** Delete *)

(** C6: Delete treats a not-found answer of the delete call as success and
    goes on to the deletion poller; any other error of the delete call is
    returned at once, without polling; Delete succeeds only when the
    poller succeeded, that is after a refresh reported [Deleted]. *)
Theorem resourceAwsVpcEndpointServiceDelete_outcomes (env : Env) (s : St) :
  (∀ e, e_delete env = Some e → isNotFound e = false →
     resourceAwsVpcEndpointServiceDelete env s =
       (inl (EWrap "Error deleting VPC Endpoint Service" (EAws e)),
        {| st_id := st_id s; st_trace := st_trace s ++ [EvDelete (st_id s)] |})) ∧
  ((e_delete env = None ∨ ∃ e, e_delete env = Some e ∧ isNotFound e = true) →
     st_trace (resourceAwsVpcEndpointServiceDelete env s).2
       = st_trace s ++ [EvDelete (st_id s); EvWait PendingDeletion TargetDeletion (st_id s)] ∧
     (resourceAwsVpcEndpointServiceDelete env s).1
       = match WaitForState PendingDeletion TargetDeletion (refreshStream env) (e_fuel env) with
         | inl e => inl (EWrap "Error waiting for VPC Endpoint Service to delete" e)
         | inr _ => inr ()
         end) ∧
  ((resourceAwsVpcEndpointServiceDelete env s).1 = inr () →
     ∃ i, rr_err (refreshStream env i) = None ∧
          rr_state (refreshStream env i) = ServiceStateDeleted).
Proof.
  unfold resourceAwsVpcEndpointServiceDelete, wrapErr, waitForVpcEndpointServiceDeletion,
    mbind, M_bind, getId, emit, throw, mret, M_ret. simpl.
  assert (Hobs : ∀ obj,
    WaitForState PendingDeletion TargetDeletion (refreshStream env) (e_fuel env) = inr obj →
    ∃ i, rr_err (refreshStream env i) = None ∧
         rr_state (refreshStream env i) = ServiceStateDeleted).
  { intros obj Ew. unfold WaitForState in Ew.
    destruct (waitForState_success_observed _ _ _ _ _ _ _ _ Ew) as (i & Hi & [Ht|[Ht _]]);
      [|done].
    exists i. split; [done | by apply list_elem_of_singleton]. }
  destruct (e_delete env) as [e|] eqn:Ed; [destruct (isNotFound e) eqn:Enf|]; simpl;
    destruct (WaitForState PendingDeletion TargetDeletion (refreshStream env) (e_fuel env))
      as [e'|obj] eqn:Ew; simpl; rewrite <-?app_assoc; simpl;
    (split_and!;
      [ intros e0 He0 Hn0; simplify_eq; try congruence; done
      | intros Hok; destruct Hok as [Hok | (e0 & He0 & Hn0)]; simplify_eq; try congruence; done
      | intros Hres; simplify_eq; eauto ]).
Qed.

(* ------------------------------------------------------------------ *)
(** ** Read on a vanished resource *)

Lemma terminal_state_cases l :
  l ∈ terminalStates → l = ServiceStateDeleted ∨ l = ServiceStateDeleting ∨ l = ServiceStateFailed.
Proof.
  unfold terminalStates. rewrite !elem_of_cons. intros [H|[H|[H|H]]]; auto.
  by apply not_elem_of_nil in H.
Qed.

(** C7: Read treats a vanished resource as stale local state: for the VPC
    endpoint service, a describe answer that is the not-found error or
    carries a [Deleted], [Deleting] or [Failed] label makes Read clear the
    id and succeed; for the S3 object copy, a HeadObject failing with HTTP
    404 makes Read clear the id and succeed. *)
Theorem read_vanished_clears_id :
  (∀ (env : Env) (s : St),
     isNotFoundResp (e_read_describe env) = true ∨
     (∃ l, describedState (e_read_describe env) = Some l ∧ l ∈ terminalStates) →
     resourceAwsVpcEndpointServiceRead env s =
       (inr (), {| st_id := ""; st_trace := st_trace s ++ [EvDescribe (st_id s); EvSetId ""] |})) ∧
  (∀ (env : S3ObjectCopy.Env) (d : S3ObjectCopy.ResourceData) (s : S3ObjectCopy.St) err,
     let bucket := S3ObjectCopy.getString d "bucket" in
     let key := S3ObjectCopy.getString d "key" in
     S3ObjectCopy.e_head env bucket key = Some err → S3ObjectCopy.s3_status err = 404 →
     S3ObjectCopy.resourceAwsS3ObjectCopyRead env d s =
       (inr (), {| S3ObjectCopy.st_id := "";
                   S3ObjectCopy.st_trace := S3ObjectCopy.st_trace s ++
                     [S3ObjectCopy.EvHeadObject bucket key; S3ObjectCopy.EvSetId ""] |})).
Proof.
  split.
  - intros env s Hgone.
    unfold resourceAwsVpcEndpointServiceRead, mbind, M_bind, getId, emit, setId, mret, M_ret.
    simpl.
    destruct (e_read_describe env) as [e|cfg] eqn:Er.
    + destruct Hgone as [Hnf | (l & Hl & _)]; [|done]. simpl in Hnf.
      rewrite refresh_not_found by done. simpl.
      by rewrite <-app_assoc.
    + destruct Hgone as [Hnf | (l & Hl & Ht)]; [done|]. simpl in Hl. injection Hl as Hl.
      unfold vpcEndpointServiceStateRefresh. rewrite Hl.
      destruct (terminal_state_cases l Ht) as [-> | [-> | ->]]; simpl;
        try (rewrite bool_decide_eq_true_2 by done); simpl; by rewrite <-app_assoc.
  - intros env d s err bucket key Hhead H404.
    unfold S3ObjectCopy.resourceAwsS3ObjectCopyRead, mbind, S3ObjectCopy.M_bind,
      S3ObjectCopy.emit, S3ObjectCopy.setId. simpl.
    fold bucket key. rewrite Hhead, H404. simpl. by rewrite <-app_assoc.
Qed.

(* ------------------------------------------------------------------ *)
(** ** Create *)

(** C2: Create issues the create call, persists the returned service id
    at once, polls (Pending = {Pending}, Target = {Available}), then, when
    [allowed_principals] is non-empty and only then, issues one
    permissions call adding the whole set and removing nothing, and ends
    with Read.  A failing step returns its error right away: no further
    call is made and the persisted id stays (no rollback). *)
Theorem resourceAwsVpcEndpointServiceCreate_sequence (env : Env) (d : ResourceData) (s : St) :
  let req := createInput d in
  resourceAwsVpcEndpointServiceCreate env d s =
  match e_create env req with
  | inl e =>
      (inl (EWrap "Error creating VPC Endpoint Service configuration" (EAws e)),
       {| st_id := st_id s; st_trace := st_trace s ++ [EvCreate req] |})
  | inr resp =>
      let sid := sc_ServiceId resp in
      let tr1 := st_trace s ++
        [EvCreate req; EvSetId sid; EvWait PendingAvailable TargetAvailable sid] in
      match WaitForState PendingAvailable TargetAvailable (refreshStream env) (e_fuel env) with
      | inl e =>
          (inl (EWrap "Error waiting for VPC Endpoint Service to become available" e),
           {| st_id := sid; st_trace := tr1 |})
      | inr _ =>
          if bool_decide (0 < size (allowed_principals (d_new d))) then
            let permReq :=
              {| mp_ServiceId := sid;
                 mp_AddAllowedPrincipals := Some (elements (allowed_principals (d_new d)));
                 mp_RemoveAllowedPrincipals := None |} in
            let s2 := {| st_id := sid; st_trace := tr1 ++ [EvModifyPerm permReq] |} in
            match e_modify_perm env permReq with
            | Some e =>
                (inl (EWrap "error adding VPC Endpoint Service permissions" (EAws e)), s2)
            | None => resourceAwsVpcEndpointServiceRead env s2
            end
          else resourceAwsVpcEndpointServiceRead env {| st_id := sid; st_trace := tr1 |}
      end
  end.
Proof.
  cbn zeta.
  unfold resourceAwsVpcEndpointServiceCreate, vpcEndpointServiceWaitUntilAvailable, fromAws,
    mbind, M_bind, getId, emit, setId, throw, mret, M_ret. simpl.
  destruct (e_create env (createInput d)) as [e|resp]; simpl; [done|].
  destruct (WaitForState PendingAvailable TargetAvailable (refreshStream env) (e_fuel env));
    simpl; [by rewrite <-!app_assoc|].
  unfold getOkSet. case_bool_decide; simpl; [|by rewrite <-!app_assoc].
  unfold expandStringSet.
  destruct (e_modify_perm env _); simpl; by rewrite <-!app_assoc.
Qed.

(* ------------------------------------------------------------------ *)
(** ** Update *)

(** C3: when the remote calls succeed, Update issues one configuration
    call, followed by a poll to [Available], exactly when one of
    acceptance_required, gateway_load_balancer_arns,
    network_load_balancer_arns, private_dns_name changed; the request sets
    only the changed scalar fields and carries the set fields as add and
    remove differences (absent for an unchanged set); independently it
    issues one permissions call, with no poll, exactly when
    allowed_principals changed, carrying its add/remove differences
    (then the tags call when tags changed); it ends with Read. *)
Theorem resourceAwsVpcEndpointServiceUpdate_calls (env : Env) (d : ResourceData) (s : St)
  (Hcfg : ∀ req, e_modify_cfg env req = None)
  (Hwait : ∃ obj, WaitForState PendingAvailable TargetAvailable (refreshStream env) (e_fuel env)
                  = inr obj)
  (Hperm : ∀ req, e_modify_perm env req = None)
  (Htags : e_update_tags env = None) :
  let o := d_old d in let n := d_new d in let id := st_id s in
  let cfgReq := modifyCfgInput d id in
  let permReq := modifyPermInput d id in
  (configHasChanges d = true ↔
     acceptance_required o ≠ acceptance_required n ∨
     gateway_load_balancer_arns o ≠ gateway_load_balancer_arns n ∨
     network_load_balancer_arns o ≠ network_load_balancer_arns n ∨
     private_dns_name o ≠ private_dns_name n) ∧
  resourceAwsVpcEndpointServiceUpdate env d s =
    resourceAwsVpcEndpointServiceRead env
      {| st_id := id;
         st_trace := st_trace s ++
           (if configHasChanges d
            then [EvModifyCfg cfgReq; EvWait PendingAvailable TargetAvailable id] else []) ++
           (if bool_decide (allowed_principals o ≠ allowed_principals n)
            then [EvModifyPerm permReq] else []) ++
           (if bool_decide (tags o ≠ tags n) then [EvUpdateTags id] else []) |} ∧
  mc_ServiceId cfgReq = id ∧
  mc_AcceptanceRequired cfgReq =
    (if bool_decide (acceptance_required o ≠ acceptance_required n)
     then Some (acceptance_required n) else None) ∧
  mc_PrivateDnsName cfgReq =
    (if bool_decide (private_dns_name o ≠ private_dns_name n)
     then Some (private_dns_name n) else None) ∧
  fieldSet (mc_AddGatewayLoadBalancerArns cfgReq)
    = gateway_load_balancer_arns n ∖ gateway_load_balancer_arns o ∧
  fieldSet (mc_RemoveGatewayLoadBalancerArns cfgReq)
    = gateway_load_balancer_arns o ∖ gateway_load_balancer_arns n ∧
  (gateway_load_balancer_arns o = gateway_load_balancer_arns n →
     mc_AddGatewayLoadBalancerArns cfgReq = None ∧ mc_RemoveGatewayLoadBalancerArns cfgReq = None) ∧
  fieldSet (mc_AddNetworkLoadBalancerArns cfgReq)
    = network_load_balancer_arns n ∖ network_load_balancer_arns o ∧
  fieldSet (mc_RemoveNetworkLoadBalancerArns cfgReq)
    = network_load_balancer_arns o ∖ network_load_balancer_arns n ∧
  (network_load_balancer_arns o = network_load_balancer_arns n →
     mc_AddNetworkLoadBalancerArns cfgReq = None ∧ mc_RemoveNetworkLoadBalancerArns cfgReq = None) ∧
  mp_ServiceId permReq = id ∧
  fieldSet (mp_AddAllowedPrincipals permReq) = allowed_principals n ∖ allowed_principals o ∧
  fieldSet (mp_RemoveAllowedPrincipals permReq) = allowed_principals o ∖ allowed_principals n.
Proof.
  intros o n id cfgReq permReq.
  destruct Hwait as [obj Hw].
  pose proof (setVpcEndpointServiceUpdateLists_spec (gateway_load_balancer_arns o)
                (gateway_load_balancer_arns n)) as HG.
  pose proof (setVpcEndpointServiceUpdateLists_spec (network_load_balancer_arns o)
                (network_load_balancer_arns n)) as HN.
  pose proof (setVpcEndpointServiceUpdateLists_spec (allowed_principals o)
                (allowed_principals n)) as HP.
  assert (Hc : cfgReq = modifyCfgInput d id) by done.
  assert (Hp : permReq = modifyPermInput d id) by done.
  unfold modifyCfgInput, modifyPermInput in Hc, Hp. fold o n in Hc, Hp.
  destruct (setVpcEndpointServiceUpdateLists (gateway_load_balancer_arns o) _ _ _) as [aG rG].
  destruct (setVpcEndpointServiceUpdateLists (network_load_balancer_arns o) _ _ _) as [aN rN].
  destruct (setVpcEndpointServiceUpdateLists (allowed_principals o) _ _ _) as [aP rP].
  destruct HG as (HG1 & HG2 & HG3 & _). destruct HN as (HN1 & HN2 & HN3 & _).
  destruct HP as (HP1 & HP2 & _).
  split_and!; try (rewrite Hc; simpl; done); try (rewrite Hp; simpl; done).
  - unfold configHasChanges, setHasChange. fold o n.
    rewrite !orb_true_iff, !bool_decide_eq_true. tauto.
  - unfold resourceAwsVpcEndpointServiceUpdate, vpcEndpointServiceWaitUntilAvailable, fromAws,
      mbind, M_bind, getId, emit, throw, mret, M_ret, setHasChange. fold o n.
    subst id cfgReq permReq.
    destruct (configHasChanges d); simpl; rewrite ?Hcfg, ?Hw; simpl;
    (destruct (bool_decide (allowed_principals o ≠ allowed_principals n)); simpl; rewrite ?Hperm; simpl);
    (destruct (bool_decide (tags o ≠ tags n)); simpl; rewrite ?Htags; simpl); rewrite <-?app_assoc; simpl; try done.
  all: rewrite ?app_nil_r; by destruct s.
Qed.

Lemma resourceAwsVpcEndpointServiceUpdate_calls_witness :
  modifyPermInput dPrincipalsChange "vpce-svc-0123" =
    {| mp_ServiceId := "vpce-svc-0123"; mp_AddAllowedPrincipals := Some ["P3"];
       mp_RemoveAllowedPrincipals := Some ["P1"] |} ∧
  resourceAwsVpcEndpointServiceUpdate envAvailable dPrincipalsChange emptySt =
    resourceAwsVpcEndpointServiceRead envAvailable
      {| st_id := "vpce-svc-0123";
         st_trace :=
           [EvModifyCfg (modifyCfgInput dPrincipalsChange "vpce-svc-0123");
            EvWait PendingAvailable TargetAvailable "vpce-svc-0123";
            EvModifyPerm (modifyPermInput dPrincipalsChange "vpce-svc-0123")] |}.
Proof.
  assert (H1 : ∀ req, e_modify_cfg envAvailable req = None) by reflexivity.
  assert (H2 : ∃ obj, WaitForState PendingAvailable TargetAvailable
                        (refreshStream envAvailable) (e_fuel envAvailable) = inr obj)
    by (eexists; vm_compute; reflexivity).
  assert (H3 : ∀ req, e_modify_perm envAvailable req = None) by reflexivity.
  assert (H4 : e_update_tags envAvailable = None) by reflexivity.
  split; [vm_compute; reflexivity|].
  exact (proj1 (proj2
    (resourceAwsVpcEndpointServiceUpdate_calls envAvailable dPrincipalsChange emptySt
       H1 H2 H3 H4))).
Defined.

(* ------------------------------------------------------------------ *)
(** ** Calls appended by a computation *)

Section Appends.

Variable P : Event -> Prop.

Lemma appendsOnly_ret {A} (x : A) : appendsOnly P (mret x).
Proof. intros s. exists []. by rewrite app_nil_r. Qed.

Lemma appendsOnly_throw {A} (e : Err) : appendsOnly P (throw (A := A) e).
Proof. intros s. exists []. by rewrite app_nil_r. Qed.

Lemma appendsOnly_getId : appendsOnly P getId.
Proof. intros s. exists []. by rewrite app_nil_r. Qed.

Lemma appendsOnly_emit ev : P ev → appendsOnly P (emit ev).
Proof. intros H s. exists [ev]. auto. Qed.

Lemma appendsOnly_setId i : P (EvSetId i) → appendsOnly P (setId i).
Proof. intros H s. exists [EvSetId i]. auto. Qed.

Lemma appendsOnly_bind {A B} (f : A → M B) (m : M A) :
  appendsOnly P m → (∀ x, appendsOnly P (f x)) → appendsOnly P (m ≫= f).
Proof.
  intros Hm Hf s. unfold mbind, M_bind.
  destruct (Hm s) as (tr & Htr & Hp).
  destruct (m s) as [[e|x] s'] eqn:E; simpl in *.
  - exists tr. auto.
  - destruct (Hf x s') as (tr' & Htr' & Hp').
    exists (tr ++ tr'). rewrite Htr', Htr, app_assoc. split; [done|].
    by apply Forall_app.
Qed.

Lemma appendsOnly_fromAws r ctx : appendsOnly P (fromAws r ctx).
Proof. destruct r; [apply appendsOnly_throw | apply appendsOnly_ret]. Qed.

Lemma appendsOnly_wrapErr {A} ctx (m : M A) : appendsOnly P m → appendsOnly P (wrapErr ctx m).
Proof.
  intros Hm s. unfold wrapErr. destruct (Hm s) as (tr & Htr & Hp).
  destruct (m s) as [[e|x] s']; eauto.
Qed.

End Appends.

Create HintDb appends.
#[export] Hint Resolve appendsOnly_ret appendsOnly_throw appendsOnly_getId
  appendsOnly_fromAws : appends.

Ltac appends :=
  repeat first
    [ apply appendsOnly_bind; [| intros ?]
    | apply appendsOnly_wrapErr
    | apply appendsOnly_emit
    | apply appendsOnly_setId
    | progress auto with appends
    | case_match ].

Lemma appendsOnly_read (P : Event → Prop) env :
  (∀ id, P (EvDescribe id)) → (∀ id, P (EvDescribePerms id)) → P (EvSetId "") →
  appendsOnly P (resourceAwsVpcEndpointServiceRead env).
Proof. intros H1 H2 H3. unfold resourceAwsVpcEndpointServiceRead. appends; auto. Qed.

Lemma appendsOnly_waitAvailable (P : Event → Prop) env :
  (∀ id, P (EvWait PendingAvailable TargetAvailable id)) →
  appendsOnly P (vpcEndpointServiceWaitUntilAvailable env).
Proof. intros H. unfold vpcEndpointServiceWaitUntilAvailable. appends; auto. Qed.

(* ------------------------------------------------------------------ *)
(** ** Update requests carry only non-empty lists *)

Lemma modifyCfgInput_lists d id :
  (mc_AddGatewayLoadBalancerArns (modifyCfgInput d id),
   mc_RemoveGatewayLoadBalancerArns (modifyCfgInput d id))
  = setVpcEndpointServiceUpdateLists (gateway_load_balancer_arns (d_old d))
      (gateway_load_balancer_arns (d_new d)) None None ∧
  (mc_AddNetworkLoadBalancerArns (modifyCfgInput d id),
   mc_RemoveNetworkLoadBalancerArns (modifyCfgInput d id))
  = setVpcEndpointServiceUpdateLists (network_load_balancer_arns (d_old d))
      (network_load_balancer_arns (d_new d)) None None.
Proof.
  unfold modifyCfgInput.
  destruct (setVpcEndpointServiceUpdateLists (gateway_load_balancer_arns _) _ _ _).
  destruct (setVpcEndpointServiceUpdateLists (network_load_balancer_arns _) _ _ _).
  done.
Qed.

Lemma modifyPermInput_lists d id :
  (mp_AddAllowedPrincipals (modifyPermInput d id), mp_RemoveAllowedPrincipals (modifyPermInput d id))
  = setVpcEndpointServiceUpdateLists (allowed_principals (d_old d))
      (allowed_principals (d_new d)) None None.
Proof. unfold modifyPermInput. by destruct (setVpcEndpointServiceUpdateLists _ _ _ _). Qed.

(** A pair of lists built by the helper: both well formed, and each is
    absent exactly when its difference is empty. *)
Lemma update_lists_absent_iff (o n : gset string) a r :
  (a, r) = setVpcEndpointServiceUpdateLists o n None None →
  listFieldOk a ∧ listFieldOk r ∧ (n ∖ o = ∅ ↔ a = None) ∧ (o ∖ n = ∅ ↔ r = None).
Proof.
  intros Heq. pose proof (setVpcEndpointServiceUpdateLists_spec o n) as Hs.
  rewrite <-Heq in Hs. destruct Hs as (Ha & Hr & _ & Hoka & Hokr).
  rewrite <-Ha, <-Hr.
  assert (Hiff : ∀ f, listFieldOk f → fieldSet f = ∅ ↔ f = None).
  { intros f [-> | (l & -> & Hl)]; [done|]. split; [|done].
    destruct l as [|x l]; simpl in Hl; [lia|]. simpl. set_solver. }
  split_and!; auto.
Qed.

Lemma configHasChanges_changed d : configHasChanges d = true → ¬ diffUnchanged d.
Proof.
  unfold configHasChanges, setHasChange, diffUnchanged.
  rewrite !orb_true_iff, !bool_decide_eq_true. tauto.
Qed.

Lemma principalsChange_changed d :
  setHasChange (allowed_principals (d_old d)) (allowed_principals (d_new d)) = true →
  ¬ diffUnchanged d.
Proof. unfold setHasChange, diffUnchanged. rewrite bool_decide_eq_true. tauto. Qed.

(** C8: every add/remove list of the modify requests Update issues is
    non-empty when present; a list is absent exactly when its difference
    is empty; when none of the attributes behind a modify call changed,
    Update issues no modify call at all. *)
Theorem resourceAwsVpcEndpointServiceUpdate_request_lists (env : Env) (d : ResourceData) (s : St) :
  (∃ tr, st_trace (resourceAwsVpcEndpointServiceUpdate env d s).2 = st_trace s ++ tr ∧
         Forall requestListsOk tr ∧
         (diffUnchanged d → Forall (λ ev, isModifyCall ev = false) tr)) ∧
  (∀ id,
     let o := d_old d in let n := d_new d in
     (gateway_load_balancer_arns n ∖ gateway_load_balancer_arns o = ∅
        ↔ mc_AddGatewayLoadBalancerArns (modifyCfgInput d id) = None) ∧
     (gateway_load_balancer_arns o ∖ gateway_load_balancer_arns n = ∅
        ↔ mc_RemoveGatewayLoadBalancerArns (modifyCfgInput d id) = None) ∧
     (network_load_balancer_arns n ∖ network_load_balancer_arns o = ∅
        ↔ mc_AddNetworkLoadBalancerArns (modifyCfgInput d id) = None) ∧
     (network_load_balancer_arns o ∖ network_load_balancer_arns n = ∅
        ↔ mc_RemoveNetworkLoadBalancerArns (modifyCfgInput d id) = None) ∧
     (allowed_principals n ∖ allowed_principals o = ∅
        ↔ mp_AddAllowedPrincipals (modifyPermInput d id) = None) ∧
     (allowed_principals o ∖ allowed_principals n = ∅
        ↔ mp_RemoveAllowedPrincipals (modifyPermInput d id) = None)).
Proof.
  set (P := λ ev, requestListsOk ev ∧ (diffUnchanged d → isModifyCall ev = false)).
  assert (HU : appendsOnly P (resourceAwsVpcEndpointServiceUpdate env d)).
  { unfold resourceAwsVpcEndpointServiceUpdate.
    apply appendsOnly_bind; [|intros _].
    { destruct (configHasChanges d) eqn:Ec; [|auto with appends].
      apply appendsOnly_bind; [auto with appends | intros id].
      apply appendsOnly_bind; [apply appendsOnly_emit | intros _].
      - split; [|intros Hun; by apply configHasChanges_changed in Ec].
        destruct (modifyCfgInput_lists d id) as [HG HN].
        apply update_lists_absent_iff in HG as (? & ? & _).
        apply update_lists_absent_iff in HN as (? & ? & _).
        simpl. auto.
      - apply appendsOnly_bind; [auto with appends | intros _].
        apply appendsOnly_waitAvailable. intros. by split. }
    apply appendsOnly_bind; [|intros _].
    { destruct (setHasChange _ _) eqn:Ep; [|auto with appends].
      apply appendsOnly_bind; [auto with appends | intros id].
      apply appendsOnly_bind; [apply appendsOnly_emit | intros _]; [|auto with appends].
      split; [|intros Hun; by apply principalsChange_changed in Ep].
      pose proof (modifyPermInput_lists d id) as HP.
      apply update_lists_absent_iff in HP as (? & ? & _). simpl. auto. }
    apply appendsOnly_bind; [|intros _].
    { case_match; [|auto with appends]. appends. by split. }
    apply appendsOnly_read; intros; by split. }
  split.
  - destruct (HU s) as (tr & Htr & Hp). exists tr. split_and!; [done | |].
    + eapply Forall_impl; [exact Hp|]. by intros ? [? ?].
    + intros Hun. eapply Forall_impl; [exact Hp|]. intros ? [? H]. auto.
  - intros id o n.
    destruct (modifyCfgInput_lists d id) as [HG HN].
    pose proof (modifyPermInput_lists d id) as HP.
    apply update_lists_absent_iff in HG as (_ & _ & ? & ?).
    apply update_lists_absent_iff in HN as (_ & _ & ? & ?).
    apply update_lists_absent_iff in HP as (_ & _ & ? & ?).
    split_and!; assumption.
Qed.

(* ------------------------------------------------------------------ *)
(** ** S3 object copy: Update and Delete *)

Module S3ObjectCopyFacts.

Import S3ObjectCopy.

Lemma updateCopyIf_none_set env d ks s :
  (∀ k, k ∈ ks → getOk d k = false) → hasChanges d updateArgs = false →
  updateCopyIf env d ks s = (inr (), s).
Proof.
  induction ks as [|k ks IH]; intros Hk Hc; cbn [updateCopyIf].
  - rewrite Hc. reflexivity.
  - rewrite Hk by (apply elem_of_cons; by left).
    apply IH; [|done]. intros k' Hk'. apply Hk. apply elem_of_cons. by right.
Qed.

Lemma updateCopyIf_some_set env d ks :
  (∃ k, k ∈ ks ∧ getOk d k = true) →
  updateCopyIf env d ks = resourceAwsS3ObjectCopyDoCopy env d.
Proof.
  induction ks as [|k ks IH]; intros (k' & Hin & Hk); simpl.
  - by apply not_elem_of_nil in Hin.
  - destruct (getOk d k) eqn:E; [done|].
    apply elem_of_cons in Hin as [->|Hin]; [congruence|]. eauto.
Qed.

(** C9: Update makes no call and succeeds when no copy_if_* attribute is
    set and none of the listed arguments changed; when some copy_if_*
    attribute is set it runs the whole copy, changed attributes or not. *)
Theorem resourceAwsS3ObjectCopyUpdate_copy_decision (env : Env) :
  (∀ d s, (∀ k, k ∈ copyIfKeys → getOk d k = false) →
          (∀ a, a ∈ updateArgs → hasChange d a = false) →
          resourceAwsS3ObjectCopyUpdate env d s = (inr (), s)) ∧
  (∀ d, (∃ k, k ∈ copyIfKeys ∧ getOk d k = true) →
        resourceAwsS3ObjectCopyUpdate env d = resourceAwsS3ObjectCopyDoCopy env d).
Proof.
  split.
  - intros d s Hk Ha. apply updateCopyIf_none_set; [done|].
    unfold hasChanges. apply not_true_is_false. intros Hex.
    apply existsb_exists in Hex as (a & Hin & Ha').
    rewrite Ha in Ha'; [done|]. by apply list_elem_of_In.
  - intros d Hk. by apply updateCopyIf_some_set.
Qed.

Lemma string_append_cons x (a b : string) :
  String.append (String x a) b = String x (String.append a b).
Proof. reflexivity. Qed.

Lemma string_append_nil (b : string) : String.append EmptyString b = b.
Proof. reflexivity. Qed.

Lemma string_append_assoc (a b c : string) :
  String.append (String.append a b) c = String.append a (String.append b c).
Proof.
  induction a as [|x a IH]; [done|]. rewrite !string_append_cons. by rewrite IH.
Qed.

Lemma trimLeftSlash_steps s : rtc slashStep s (trimLeftSlash s).
Proof.
  induction s as [|c s IH]; simpl; [done|].
  case_bool_decide; [subst c | done].
  eapply rtc_l; [apply slash_leading | exact IH].
Qed.

Lemma trimLeftSlash_no_leading s : startsWithSlash (trimLeftSlash s) = false.
Proof.
  induction s as [|c s IH]; simpl; [done|].
  case_bool_decide; [done|]. simpl. by rewrite bool_decide_eq_false_2.
Qed.

(** Replacing the runs of '/' only merges adjacent '/' (under any prefix). *)
Lemma replaceSlashRuns_steps s :
  (∀ p, rtc slashStep (String.append p s) (String.append p (replaceSlashRuns false s))) ∧
  (∀ p, rtc slashStep (String.append p (String "/" s))
                      (String.append p (String "/" (replaceSlashRuns true s)))).
Proof.
  induction s as [|c s [IHf IHt]]; simpl; [split; intros; done|].
  case_bool_decide as Hc; [subst c|]; split; intros p.
  - apply IHt.
  - eapply rtc_l; [apply slash_double | apply IHt].
  - pose proof (IHf (String.append p (String c EmptyString))) as H.
    rewrite !string_append_assoc, !string_append_cons, !string_append_nil in H. exact H.
  - pose proof (IHf (String.append p (String "/" (String c EmptyString)))) as H.
    rewrite !string_append_assoc, !string_append_cons, !string_append_nil in H. exact H.
Qed.

Lemma hasDoubleSlash_cons a t :
  hasDoubleSlash (String a t) = (bool_decide (a = "/"%char) && startsWithSlash t) || hasDoubleSlash t.
Proof. done. Qed.

Lemma replaceSlashRuns_normal s :
  startsWithSlash (replaceSlashRuns true s) = false ∧
  hasDoubleSlash (replaceSlashRuns true s) = false ∧
  hasDoubleSlash (replaceSlashRuns false s) = false ∧
  (startsWithSlash s = false → startsWithSlash (replaceSlashRuns false s) = false).
Proof.
  induction s as [|c s (IH1 & IH2 & IH3 & IH4)]; simpl; [done|].
  case_bool_decide as Hc; [subst c|].
  - split_and!; [done | done | | done].
    rewrite hasDoubleSlash_cons, IH1, IH2. by rewrite andb_false_r.
  - simpl. rewrite !bool_decide_eq_false_2 by done. simpl. split_and!; done.
Qed.

(** C10: Delete normalises the key before the delete call: the normalised
    key has no leading '/' and no "//", and it is reached from the key by
    dropping leading '/' and merging adjacent '/' only; the delete call
    gets the normalised key, while Read's HeadObject call and the copy
    request use the key as it is: whenever DoCopy builds its request, the
    request carries the key verbatim and the copy call is its first call;
    when building the request panics, no call is made. *)
Theorem resourceAwsS3ObjectCopyDelete_normalized_key (env : Env) :
  (∀ key, startsWithSlash (normalizeKey key) = false ∧
          hasDoubleSlash (normalizeKey key) = false ∧
          rtc slashStep key (normalizeKey key)) ∧
  (∀ d s,
     let bucket := getString d "bucket" in
     let key := getString d "key" in
     st_trace (resourceAwsS3ObjectCopyDelete env d s).2 =
       st_trace s ++
       [if getOk d "version_id"
        then EvDeleteAllObjectVersions bucket (normalizeKey key) (getBool d "force_destroy")
        else EvDeleteObjectVersion bucket (normalizeKey key) ""]) ∧
  (∀ d s, ∃ tr, st_trace (resourceAwsS3ObjectCopyRead env d s).2 =
                st_trace s ++ EvHeadObject (getString d "bucket") (getString d "key") :: tr) ∧
  (∀ d s input, copyObjectInput d = Some input →
          co_Key input = getString d "key" ∧
          ∃ tr, st_trace (resourceAwsS3ObjectCopyDoCopy env d s).2 =
                st_trace s ++ EvCopyObject input :: tr) ∧
  (∀ d s, copyObjectInput d = None →
          st_trace (resourceAwsS3ObjectCopyDoCopy env d s).2 = st_trace s).
Proof.
  split_and!.
  - intros key. unfold normalizeKey.
    destruct (replaceSlashRuns_normal (trimLeftSlash key)) as (_ & _ & H3 & H4).
    split_and!; [by apply H4, trimLeftSlash_no_leading | done |].
    etrans; [apply trimLeftSlash_steps|].
    apply ((proj1 (replaceSlashRuns_steps (trimLeftSlash key))) EmptyString).
  - intros d s bucket key.
    unfold resourceAwsS3ObjectCopyDelete, mbind, M_bind, emit.
    destruct (getOk d "version_id"); simpl; destruct (e_delete env); done.
  - intros d s.
    unfold resourceAwsS3ObjectCopyRead, mbind, M_bind, emit, setId, throw, mret, M_ret. simpl.
    destruct (e_head env _ _) as [err|]; [case_bool_decide|destruct (e_read_rest env)]; simpl;
      rewrite <-?app_assoc; eexists; done.
  - intros d s input Hi. split.
    + unfold copyObjectInput in Hi.
      destruct (grantFields d); simpl in Hi; [|done]. by injection Hi as <-.
    + unfold resourceAwsS3ObjectCopyDoCopy. rewrite Hi.
      unfold mbind, M_bind, emit, setId, throw, mret, M_ret. simpl.
      destruct (e_copy env _); [|destruct (e_object_read env)]; simpl;
        rewrite <-?app_assoc; eexists; done.
  - intros d s Hi. unfold resourceAwsS3ObjectCopyDoCopy. rewrite Hi. done.
Qed.

(** On the key "//a//b/", Delete targets "a/b/" while Read heads "//a//b/". *)
Example delete_and_read_keys :
  st_trace (resourceAwsS3ObjectCopyDelete envOk dPlainCopy emptySt).2
    = [EvDeleteObjectVersion "dst" "a/b/" ""] ∧
  st_trace (resourceAwsS3ObjectCopyRead envOk dPlainCopy emptySt).2
    = [EvHeadObject "dst" "//a//b/"; EvListTags "dst" "//a//b/"].
Proof. split; vm_compute; reflexivity. Qed.

End S3ObjectCopyFacts.

(* ------------------------------------------------------------------ *)
(** ** Further properties of the VPC endpoint service *)

Section PollerTimeout.

Variables (pending target : list string) (refresh : nat -> RefreshResult).

Lemma waitingAt_shift k fuel :
  waitingAt pending target refresh k →
  (∀ i, i < fuel → waitingAt pending target refresh (S k + i)) ↔
  (∀ i, i < S fuel → waitingAt pending target refresh (k + i)).
Proof.
  intros H0. split.
  - intros H [|i] Hi; [by rewrite Nat.add_0_r|].
    replace (k + S i) with (S k + i) by lia. apply H; lia.
  - intros H i Hi. replace (S k + i) with (k + S i) by lia. apply H; lia.
Qed.

Lemma waitForState_waiting_then_unexpected n :
  ∀ k nt fuel last,
  (∀ i, i < n → waitingAt pending target refresh (k + i)) → n < fuel →
  rr_err (refresh (k + n)) = None → rr_obj (refresh (k + n)) ≠ RNil →
  rr_state (refresh (k + n)) ∉ target → rr_state (refresh (k + n)) ∉ pending → pending ≠ [] →
  waitForState pending target refresh k nt fuel last
    = inl (EUnexpectedState (rr_state (refresh (k + n)))).
Proof.
  induction n as [|n IH]; intros k nt fuel last Hw Hlt He Ho Ht Hp Hne;
    (destruct fuel as [|fuel]; [lia|]); simpl.
  - rewrite Nat.add_0_r in He, Ho, Ht, Hp |- *. rewrite He.
    destruct (rr_obj (refresh k)); [done| |];
      rewrite (bool_decide_eq_false_2 _ Ht), (bool_decide_eq_false_2 _ Hp),
        (bool_decide_eq_false_2 _ Hne); done.
  - destruct (Hw 0 ltac:(lia)) as (Herr & Hobj & Hin & Hnot).
    rewrite Nat.add_0_r in Herr, Hobj, Hin, Hnot. rewrite Herr.
    assert (Hw' : ∀ i, i < n → waitingAt pending target refresh (S k + i)).
    { intros i Hi; replace (S k + i) with (k + S i) by lia; apply Hw; lia. }
    replace (k + S n) with (S k + n) in * by lia.
    destruct (rr_obj (refresh k)) eqn:Eo; [done| |];
      rewrite (bool_decide_eq_false_2 _ Hnot), (bool_decide_eq_true_2 _ Hin);
      apply IH; auto; lia.
Qed.

Hypothesis refresh_nil : ∀ i, rr_err (refresh i) = None → rr_obj (refresh i) ≠ RNil.
Hypothesis refresh_no_timeout : ∀ i l, rr_err (refresh i) ≠ Some (ETimeout l).
Hypothesis pending_nonempty : pending ≠ [].

(** With a refresh that never returns a nil object without an error, the
    poller times out exactly when every refresh within the budget was a
    waiting one. *)
Lemma waitForState_timeout_iff fuel :
  ∀ k nt last,
  (∃ l, waitForState pending target refresh k nt fuel last = inl (ETimeout l)) ↔
  (∀ i, i < fuel → waitingAt pending target refresh (k + i)).
Proof.
  induction fuel as [|fuel IH]; intros k nt last; simpl.
  - split; [intros _ i Hi; lia | eauto].
  - assert (Hfirst : ∀ P : Prop, ¬ waitingAt pending target refresh k →
              (∀ i, i < S fuel → waitingAt pending target refresh (k + i)) → P).
    { intros P Hn Hw. exfalso. apply Hn. rewrite <-(Nat.add_0_r k). apply Hw. lia. }
    destruct (rr_err (refresh k)) as [e|] eqn:Ee.
    + split.
      * intros [l Hl]. injection Hl as ->. by apply refresh_no_timeout in Ee.
      * apply Hfirst. intros (He & _). congruence.
    + assert (Hn := refresh_nil k Ee).
      destruct (rr_obj (refresh k)) eqn:Eo; [done| |];
        (case_bool_decide as Ht;
         [split; [by intros [l Hl] | apply Hfirst; by intros (_ & _ & _ & ?)]|]);
        (case_bool_decide as Hp;
         [rewrite IH; apply waitingAt_shift; unfold waitingAt; rewrite Ee, Eo; done|]);
        (case_bool_decide as He0; [done|]);
        (split; [by intros [l Hl] | apply Hfirst; by intros (_ & _ & ? & _)]).
Qed.

End PollerTimeout.

Lemma refreshStream_nil env i :
  rr_err (refreshStream env i) = None → rr_obj (refreshStream env i) ≠ RNil.
Proof.
  unfold refreshStream, vpcEndpointServiceStateRefresh.
  destruct (e_refresh env i) as [e|cfg]; [destruct (isNotFound e)|case_bool_decide]; simpl; done.
Qed.

Lemma refreshStream_no_timeout env i l : rr_err (refreshStream env i) ≠ Some (ETimeout l).
Proof.
  unfold refreshStream, vpcEndpointServiceStateRefresh.
  destruct (e_refresh env i) as [e|cfg]; [destruct (isNotFound e)|case_bool_decide]; simpl; done.
Qed.

(** A refresh the pollers wait on is a describe answer labelled with a
    pending state. *)
Lemma refreshStream_waiting env labels target i :
  ServiceStateFailed ∉ labels → ServiceStateDeleted ∉ labels → (∀ l, l ∈ labels → l ∉ target) →
  waitingAt labels target (refreshStream env) i ↔
  match describedState (e_refresh env i) with Some l => l ∈ labels | None => False end.
Proof.
  intros Hf Hd Hdisj. unfold waitingAt, refreshStream, vpcEndpointServiceStateRefresh.
  destruct (e_refresh env i) as [e|cfg]; simpl.
  - destruct (isNotFound e); simpl; [|split; [by intros (? & _)|done]].
    split; [by intros (_ & _ & ? & _)|done].
  - case_bool_decide as HF; simpl.
    + rewrite HF. split; [by intros (? & _)|done].
    + split; [by intros (_ & _ & ? & _)|]. intros Hl. split_and!; auto; done.
Qed.

Lemma allLabelled_iff env labels n :
  allLabelled env labels n = true ↔
  ∀ i, i < n → match describedState (e_refresh env i) with Some l => l ∈ labels | None => False end.
Proof.
  unfold allLabelled. rewrite forallb_forall. split.
  - intros H i Hi. specialize (H i (proj2 (in_seq n 0 i) ltac:(lia))).
    destruct (describedState _); [by apply bool_decide_eq_true_1 in H|done].
  - intros H i Hi. apply in_seq in Hi. specialize (H i ltac:(lia)).
    destruct (describedState _); [by apply bool_decide_eq_true_2|done].
Qed.

(** The availability poller times out exactly when every describe answer
    within its budget reads [Pending]. *)
Theorem vpcEndpointServiceWaitUntilAvailable_timeout (env : Env) (s : St) :
  (∃ l, (vpcEndpointServiceWaitUntilAvailable env s).1 =
        inl (EWrap "Error waiting for VPC Endpoint Service to become available" (ETimeout l)))
  ↔ allLabelled env PendingAvailable (e_fuel env) = true.
Proof.
  transitivity (∃ l, WaitForState PendingAvailable TargetAvailable (refreshStream env) (e_fuel env)
                     = inl (ETimeout l)).
  { unfold vpcEndpointServiceWaitUntilAvailable, mbind, M_bind, getId, emit. simpl.
    destruct (WaitForState _ _ _ _) as [e|o]; simpl;
      split; intros [l Hl]; exists l; congruence. }
  unfold WaitForState. rewrite waitForState_timeout_iff;
    [| apply refreshStream_nil | apply refreshStream_no_timeout | done].
  rewrite allLabelled_iff. simpl.
  split; intros H i Hi; specialize (H i Hi); revert H; apply refreshStream_waiting;
    unfold PendingAvailable, TargetAvailable;
    try (rewrite list_elem_of_singleton; done);
    intros l; rewrite !list_elem_of_singleton; by intros ->.
Qed.

(** The deletion poller times out exactly when every describe answer
    within its budget reads [Available] or [Deleting]. *)
Theorem waitForVpcEndpointServiceDeletion_timeout (env : Env) (s : St) :
  (∃ l, (waitForVpcEndpointServiceDeletion env s).1 = inl (ETimeout l))
  ↔ allLabelled env PendingDeletion (e_fuel env) = true.
Proof.
  transitivity (∃ l, WaitForState PendingDeletion TargetDeletion (refreshStream env) (e_fuel env)
                     = inl (ETimeout l)).
  { unfold waitForVpcEndpointServiceDeletion, mbind, M_bind, getId, emit. simpl.
    destruct (WaitForState _ _ _ _) as [e|o]; simpl;
      split; intros [l Hl]; exists l; congruence. }
  unfold WaitForState. rewrite waitForState_timeout_iff;
    [| apply refreshStream_nil | apply refreshStream_no_timeout | done].
  rewrite allLabelled_iff. simpl.
  assert (Hp : ∀ l, l ∈ PendingDeletion ↔ l = ServiceStateAvailable ∨ l = ServiceStateDeleting).
  { intros l. unfold PendingDeletion. rewrite !elem_of_cons, elem_of_nil. tauto. }
  split; intros H i Hi; specialize (H i Hi); revert H; apply refreshStream_waiting;
    try (rewrite Hp; by intros [?|?]);
    intros l; unfold TargetDeletion; rewrite Hp, list_elem_of_singleton; by intros [->| ->].
Qed.


(** After a run of [Pending] answers, an answer labelled with a state
    other than [Pending], [Available] or [Failed] (seen before the timeout)
    makes the availability poller fail with an unexpected-state error
    naming that label. *)
Theorem vpcEndpointServiceWaitUntilAvailable_unexpected (env : Env) (n : nat) (s : St) (l : string)
  (Hpending : allLabelled env PendingAvailable n = true)
  (Hl : describedState (e_refresh env n) = Some l)
  (Hother : l ∉ [ServiceStatePending; ServiceStateAvailable; ServiceStateFailed])
  (Htime : n < e_fuel env) :
  (vpcEndpointServiceWaitUntilAvailable env s).1
    = inl (EWrap "Error waiting for VPC Endpoint Service to become available" (EUnexpectedState l)).
Proof.
  rewrite !elem_of_cons, elem_of_nil in Hother.
  assert (Hr : refreshStream env n = {| rr_obj := RCfg (match e_refresh env n with
                                                      | DescOk c => c
                                                      | DescErr _ => cfgIn l end);
                                        rr_state := l; rr_err := None |}).
  { unfold refreshStream, vpcEndpointServiceStateRefresh.
    destruct (e_refresh env n) as [e|cfg]; simpl in Hl; [done|]. injection Hl as Hl.
    rewrite Hl, bool_decide_eq_false_2 by tauto. done. }
  assert (Hw : WaitForState PendingAvailable TargetAvailable (refreshStream env) (e_fuel env)
               = inl (EUnexpectedState l)).
  { unfold WaitForState.
    rewrite (waitForState_waiting_then_unexpected _ _ _ n 0); simpl; rewrite ?Hr; try done.
    - apply allLabelled_waiting; [done | | ].
      + unfold PendingAvailable. rewrite list_elem_of_singleton. done.
      + intros l'. unfold PendingAvailable, TargetAvailable.
        rewrite !list_elem_of_singleton. intros ->. done.
    - unfold TargetAvailable. rewrite list_elem_of_singleton. tauto.
    - unfold PendingAvailable. rewrite list_elem_of_singleton. tauto. }
  unfold vpcEndpointServiceWaitUntilAvailable, mbind, M_bind, getId, emit. simpl.
  by rewrite Hw.
Qed.

Lemma vpcEndpointServiceWaitUntilAvailable_unexpected_witness :
  allLabelled envPendingThenDeleting PendingAvailable 2 = true ∧
  describedState (e_refresh envPendingThenDeleting 2) = Some ServiceStateDeleting ∧
  (vpcEndpointServiceWaitUntilAvailable envPendingThenDeleting emptySt).1
    = inl (EWrap "Error waiting for VPC Endpoint Service to become available"
             (EUnexpectedState ServiceStateDeleting)).
Proof.
  assert (H1 : allLabelled envPendingThenDeleting PendingAvailable 2 = true)
    by (vm_compute; reflexivity).
  assert (H2 : describedState (e_refresh envPendingThenDeleting 2) = Some ServiceStateDeleting)
    by reflexivity.
  assert (H3 : ServiceStateDeleting ∉ [ServiceStatePending; ServiceStateAvailable; ServiceStateFailed])
    by (rewrite !elem_of_cons, elem_of_nil; unfold ServiceStateDeleting, ServiceStatePending,
          ServiceStateAvailable, ServiceStateFailed; intuition discriminate).
  assert (H4 : 2 < e_fuel envPendingThenDeleting) by (simpl; lia).
  split_and!; [exact H1 | exact H2 |].
  exact (vpcEndpointServiceWaitUntilAvailable_unexpected envPendingThenDeleting 2 emptySt
           ServiceStateDeleting H1 H2 H3 H4).
Defined.

(** Read fails on a describe error other than not-found: the error is
    returned wrapped, the id is kept and no further call is made. *)
Theorem resourceAwsVpcEndpointServiceRead_describe_error (env : Env) (s : St) (e : AwsErr)
  (Hdesc : e_read_describe env = DescErr e) (Hnf : isNotFound e = false) :
  resourceAwsVpcEndpointServiceRead env s =
    (inl (EWrap "error reading VPC Endpoint Service" (EAws e)),
     {| st_id := st_id s; st_trace := st_trace s ++ [EvDescribe (st_id s)] |}).
Proof.
  unfold resourceAwsVpcEndpointServiceRead, mbind, M_bind, getId, emit, throw. simpl.
  rewrite Hdesc. simpl. rewrite Hnf. simpl. done.
Qed.

Lemma resourceAwsVpcEndpointServiceRead_describe_error_witness :
  e_read_describe envReadThrottled = DescErr {| aws_code := "RequestLimitExceeded" |} ∧
  isNotFound {| aws_code := "RequestLimitExceeded" |} = false ∧
  resourceAwsVpcEndpointServiceRead envReadThrottled emptySt =
    (inl (EWrap "error reading VPC Endpoint Service"
            (EAws {| aws_code := "RequestLimitExceeded" |})),
     {| st_id := "vpce-svc-0123"; st_trace := [EvDescribe "vpce-svc-0123"] |}).
Proof.
  assert (H1 : e_read_describe envReadThrottled = DescErr {| aws_code := "RequestLimitExceeded" |})
    by reflexivity.
  assert (H2 : isNotFound {| aws_code := "RequestLimitExceeded" |} = false)
    by (vm_compute; reflexivity).
  split_and!; [exact H1 | exact H2 |].
  exact (resourceAwsVpcEndpointServiceRead_describe_error envReadThrottled emptySt _ H1 H2).
Defined.

Section KeepsId.

Lemma keepsIdOrClears_ret {A} (x : A) : keepsIdOrClears (mret x).
Proof. intros s. by left. Qed.

Lemma keepsIdOrClears_throw {A} (e : Err) : keepsIdOrClears (throw (A := A) e).
Proof. intros s. by left. Qed.

Lemma keepsIdOrClears_getId : keepsIdOrClears getId.
Proof. intros s. by left. Qed.

Lemma keepsIdOrClears_emit ev : keepsIdOrClears (emit ev).
Proof. intros s. by left. Qed.

Lemma keepsIdOrClears_clear : keepsIdOrClears (setId "").
Proof. intros s. by right. Qed.

Lemma keepsIdOrClears_bind {A B} (f : A → M B) (m : M A) :
  keepsIdOrClears m → (∀ x, keepsIdOrClears (f x)) → keepsIdOrClears (m ≫= f).
Proof.
  intros Hm Hf s. unfold mbind, M_bind. pose proof (Hm s) as H.
  destruct (m s) as [[e|x] s']; simpl in *; [done|].
  destruct (Hf x s') as [-> | ->]; [done | by right].
Qed.

Lemma keepsIdOrClears_fromAws r ctx : keepsIdOrClears (fromAws r ctx).
Proof. destruct r; [apply keepsIdOrClears_throw | apply keepsIdOrClears_ret]. Qed.

Lemma keepsIdOrClears_wrapErr {A} ctx (m : M A) :
  keepsIdOrClears m → keepsIdOrClears (wrapErr ctx m).
Proof. intros Hm s. unfold wrapErr. pose proof (Hm s) as H. by destruct (m s) as [[e|x] s']. Qed.

End KeepsId.

Create HintDb keepsid.
#[export] Hint Resolve keepsIdOrClears_ret keepsIdOrClears_throw keepsIdOrClears_getId
  keepsIdOrClears_emit keepsIdOrClears_clear keepsIdOrClears_fromAws : keepsid.

Ltac keeps_id :=
  repeat first
    [ apply keepsIdOrClears_bind; [| intros ?]
    | apply keepsIdOrClears_wrapErr
    | progress auto with keepsid
    | case_match ].

(** Read, Update and Delete never give the resource a new id: each leaves
    the persisted id as it was or clears it (only Create sets one). *)
Theorem resourceAwsVpcEndpointService_id_kept_or_cleared (env : Env) :
  keepsIdOrClears (resourceAwsVpcEndpointServiceRead env) ∧
  (∀ d, keepsIdOrClears (resourceAwsVpcEndpointServiceUpdate env d)) ∧
  keepsIdOrClears (resourceAwsVpcEndpointServiceDelete env).
Proof.
  split_and!.
  - unfold resourceAwsVpcEndpointServiceRead. keeps_id.
  - intros d. unfold resourceAwsVpcEndpointServiceUpdate, vpcEndpointServiceWaitUntilAvailable,
      resourceAwsVpcEndpointServiceRead. keeps_id.
  - unfold resourceAwsVpcEndpointServiceDelete, waitForVpcEndpointServiceDeletion. keeps_id.
Qed.

(** When no attribute changed (tags included), Update makes no call of its
    own: it is Read. *)
Theorem resourceAwsVpcEndpointServiceUpdate_unchanged (env : Env) (d : ResourceData)
  (Hd : diffUnchanged d) (Htags : tags (d_old d) = tags (d_new d)) :
  ∀ s, resourceAwsVpcEndpointServiceUpdate env d s = resourceAwsVpcEndpointServiceRead env s.
Proof.
  destruct Hd as (H1 & H2 & H3 & H4 & H5). intros s.
  unfold resourceAwsVpcEndpointServiceUpdate, configHasChanges, setHasChange.
  rewrite H1, H2, H3, H4, H5, Htags, !bool_decide_eq_false_2 by tauto.
  reflexivity.
Qed.

Lemma resourceAwsVpcEndpointServiceUpdate_unchanged_witness :
  diffUnchanged {| d_old := svcP1P2; d_new := svcP1P2 |} ∧
  resourceAwsVpcEndpointServiceUpdate envAvailable {| d_old := svcP1P2; d_new := svcP1P2 |} emptySt
    = resourceAwsVpcEndpointServiceRead envAvailable emptySt.
Proof.
  assert (H1 : diffUnchanged {| d_old := svcP1P2; d_new := svcP1P2 |}) by (repeat split).
  split; [exact H1|].
  exact (resourceAwsVpcEndpointServiceUpdate_unchanged envAvailable _ H1 eq_refl emptySt).
Defined.

Lemma getOkSet_field (v : gset string) :
  (expandStringSet <$> getOkSet v = None ↔ v = ∅) ∧
  fieldSet (expandStringSet <$> getOkSet v) = v ∧
  (∀ l, expandStringSet <$> getOkSet v = Some l → NoDup l ∧ 0 < length l).
Proof.
  unfold getOkSet. case_bool_decide as H; simpl.
  - split_and!.
    + split; [done|]. intros ->. rewrite size_empty in H. lia.
    + apply list_to_set_elements_L.
    + intros l [= <-]. split; [apply NoDup_elements | exact H].
  - assert (Hv : v = ∅) by (apply leibniz_equiv, size_empty_inv; lia).
    split_and!; [done | by rewrite Hv | done].
Qed.

(** The create request carries [PrivateDnsName] exactly when the attribute
    is non-empty, and a load balancer ARN list exactly when the set is
    non-empty; a list sent holds the whole set, each ARN once. *)
Theorem createInput_optional_fields (d : ResourceData) :
  let n := d_new d in
  let req := createInput d in
  (cr_PrivateDnsName req = None ↔ private_dns_name n = "") ∧
  (∀ v, cr_PrivateDnsName req = Some v → v = private_dns_name n) ∧
  (cr_GatewayLoadBalancerArns req = None ↔ gateway_load_balancer_arns n = ∅) ∧
  (cr_NetworkLoadBalancerArns req = None ↔ network_load_balancer_arns n = ∅) ∧
  fieldSet (cr_GatewayLoadBalancerArns req) = gateway_load_balancer_arns n ∧
  fieldSet (cr_NetworkLoadBalancerArns req) = network_load_balancer_arns n ∧
  (∀ l, cr_GatewayLoadBalancerArns req = Some l ∨ cr_NetworkLoadBalancerArns req = Some l →
        NoDup l ∧ 0 < length l).
Proof.
  intros n req. subst req. unfold createInput. simpl. subst n.
  destruct (getOkSet_field (gateway_load_balancer_arns (d_new d))) as (G1 & G2 & G3).
  destruct (getOkSet_field (network_load_balancer_arns (d_new d))) as (N1 & N2 & N3).
  unfold getOkString. split_and!; try done.
  - case_bool_decide; done.
  - case_bool_decide; [done|]. by intros v [= <-].
  - intros l [Hl|Hl]; auto.
Qed.

Lemma flatten_principals_fold (aps : list AllowedPrincipal) (acc : list string) :
  foldl (fun vPrincipals allowedPrincipal =>
           match ap_Principal allowedPrincipal with
           | Some v => vPrincipals ++ [v]
           | None => vPrincipals
           end) acc aps = acc ++ omap ap_Principal aps.
Proof.
  revert acc. induction aps as [|ap aps IH]; intros acc; simpl; [by rewrite app_nil_r|].
  rewrite IH. destruct (ap_Principal ap); simpl; [by rewrite <-app_assoc | done].
Qed.

(** The flattened principal set holds exactly the non-nil principals
    returned; flattening principals built from the elements of a set gives
    the set back. *)
Theorem flattenVpcEndpointServiceAllowedPrincipals_spec :
  (∀ aps x, x ∈ flattenVpcEndpointServiceAllowedPrincipals aps ↔
            ∃ ap, ap ∈ aps ∧ ap_Principal ap = Some x) ∧
  (∀ (s : gset string) (ty : string → option string),
     flattenVpcEndpointServiceAllowedPrincipals
       (map (fun p => {| ap_Principal := Some p; ap_PrincipalType := ty p |}) (expandStringSet s))
     = s).
Proof.
  split.
  - intros aps x. unfold flattenVpcEndpointServiceAllowedPrincipals.
    rewrite flatten_principals_fold, elem_of_list_to_set. simpl.
    rewrite list_elem_of_omap. done.
  - intros s ty. unfold flattenVpcEndpointServiceAllowedPrincipals.
    rewrite flatten_principals_fold. simpl.
    replace (omap ap_Principal _) with (expandStringSet s); [apply list_to_set_elements_L|].
    unfold expandStringSet. induction (elements s) as [|p l IH]; simpl; [done|]. by f_equal.
Qed.

(** The flattened private DNS name configuration is nil exactly when the
    configuration is nil or has no field set; otherwise it is one map
    holding each set field under its key and nothing else. *)
Theorem flattenPrivateDnsNameConfiguration_spec :
  (∀ c, flattenPrivateDnsNameConfiguration c = None ↔
        match c with
        | None => True
        | Some p => pdc_Name p = None ∧ pdc_State p = None ∧ pdc_Type p = None ∧ pdc_Value p = None
        end) ∧
  (∀ p l, flattenPrivateDnsNameConfiguration (Some p) = Some l →
     ∃ tfMap, l = [tfMap] ∧
       tfMap !! "name" = pdc_Name p ∧ tfMap !! "state" = pdc_State p ∧
       tfMap !! "type" = pdc_Type p ∧ tfMap !! "value" = pdc_Value p ∧
       ∀ k, k ∉ ["name"; "state"; "type"; "value"] → tfMap !! k = None).
Proof.
  split.
  - intros [p|]; [|done]. unfold flattenPrivateDnsNameConfiguration.
    destruct p as [nm st ty vl]; simpl.
    destruct nm, st, ty, vl; simpl; unfold setIfNotNil; case_bool_decide as Hs.
    all: try (apply map_size_empty_iff in Hs; exfalso; exact (insert_non_empty _ _ _ Hs)).
    all: try (exfalso; by rewrite map_size_empty in Hs).
    all: split; intros H; first [done | intuition discriminate].
  - intros p l. unfold flattenPrivateDnsNameConfiguration.
    case_bool_decide; [done|]. intros [= <-]. eexists; split; [done|].
    destruct p as [nm st ty vl]; simpl. unfold setIfNotNil.
    destruct nm, st, ty, vl; simplify_map_eq; split_and!; try done;
      intros k Hk; rewrite !elem_of_cons, elem_of_nil in Hk;
      rewrite ?lookup_insert_ne by (intros <-; apply Hk; repeat (first [by left | right])); done.
Qed.


(* ------------------------------------------------------------------ *)
(** ** S3 object copy: key normalisation, metadata keys, ETag, grants, copy *)

Module S3ObjectCopyMoreFacts.

Import S3ObjectCopy.
Import S3ObjectCopyFacts.

Lemma trimLeftSlash_id s : startsWithSlash s = false → trimLeftSlash s = s.
Proof. destruct s as [|c s]; simpl; [done|]. intros H. by rewrite H. Qed.

Lemma replaceSlashRuns_id s :
  hasDoubleSlash s = false →
  replaceSlashRuns false s = s ∧ (startsWithSlash s = false → replaceSlashRuns true s = s).
Proof.
  induction s as [|c s IH]; [done|]. rewrite hasDoubleSlash_cons. simpl.
  case_bool_decide as Hc; simpl.
  - intros H. apply orb_false_iff in H as [Hs Hd].
    destruct (IH Hd) as [_ IH2]. subst c. split; [by rewrite IH2 | done].
  - intros Hd. destruct (IH Hd) as [IH1 _]. by rewrite IH1.
Qed.

(** Normalising a key twice is normalising it once, and a key with no
    leading '/' and no "//" is left as it is. *)
Theorem normalizeKey_idempotent :
  (∀ key, normalizeKey (normalizeKey key) = normalizeKey key) ∧
  (∀ key, startsWithSlash key = false → hasDoubleSlash key = false → normalizeKey key = key).
Proof.
  assert (Hfix : ∀ key, startsWithSlash key = false → hasDoubleSlash key = false →
                        normalizeKey key = key).
  { intros key Hs Hd. unfold normalizeKey. rewrite trimLeftSlash_id by done.
    by apply replaceSlashRuns_id. }
  split; [|exact Hfix].
  intros key. apply Hfix.
  - unfold normalizeKey.
    destruct (replaceSlashRuns_normal (trimLeftSlash key)) as (_ & _ & _ & H4).
    by apply H4, trimLeftSlash_no_leading.
  - unfold normalizeKey. apply replaceSlashRuns_normal.
Qed.

Lemma asciiToLower_idem c : asciiToLower (asciiToLower c) = asciiToLower c.
Proof. destruct c as [[] [] [] [] [] [] [] []]; vm_compute; reflexivity. Qed.

Lemma toLower_idem s : toLower (toLower s) = toLower s.
Proof. induction s as [|c s IH]; simpl; [done|]. by rewrite asciiToLower_idem, IH. Qed.

Lemma lowerMetadataKeys_inv (m0 : gmap string string) ks :
  ∀ m,
  (∀ k, is_Some (m !! k) → toLower k = k ∨ k ∈ ks) →
  (∀ k, is_Some (m0 !! k) → is_Some (m !! toLower k) ∨ (is_Some (m !! k) ∧ k ∈ ks)) →
  (∀ k, is_Some (m !! k) → ∃ k0, is_Some (m0 !! k0) ∧ (k = k0 ∨ k = toLower k0)) →
  (∀ k, is_Some (lowerMetadataKeys ks m !! k) → toLower k = k) ∧
  (∀ k, is_Some (m0 !! k) → is_Some (lowerMetadataKeys ks m !! toLower k)) ∧
  (∀ k, is_Some (lowerMetadataKeys ks m !! k) →
        ∃ k0, is_Some (m0 !! k0) ∧ (k = k0 ∨ k = toLower k0)).
Proof.
  induction ks as [|k ks IH]; intros m H1 H2 H3; simpl.
  - split_and!.
    + intros k Hk. destruct (H1 k Hk) as [?|Hin]; [done | by apply not_elem_of_nil in Hin].
    + intros k Hk. destruct (H2 k Hk) as [?|[_ Hin]]; [done | by apply not_elem_of_nil in Hin].
    + exact H3.
  - destruct (m !! k) as [v|] eqn:Ek; apply IH.
    + intros k' Hk'. apply lookup_insert_is_Some in Hk' as [<-|[_ Hk']].
      { left. apply toLower_idem. }
      apply lookup_delete_is_Some in Hk' as [Hne Hk'].
      destruct (H1 k' Hk') as [?|Hin]; [by left | right].
      apply elem_of_cons in Hin as [->|?]; [done | done].
    + intros k0 Hk0. destruct (H2 k0 Hk0) as [Hl|[Hs Hin]].
      * left. apply lookup_insert_is_Some.
        destruct (decide (toLower k = toLower k0)) as [E|E]; [by left | right; split; [done|]].
        apply lookup_delete_is_Some. split; [|done].
        intros Ek0. apply E. by rewrite Ek0, toLower_idem.
      * apply elem_of_cons in Hin as [->|Hin].
        { left. apply lookup_insert_is_Some. by left. }
        destruct (decide (k0 = k)) as [->|Hne].
        { left. apply lookup_insert_is_Some. by left. }
        right. split; [|done]. apply lookup_insert_is_Some.
        destruct (decide (toLower k = k0)); [by left | right; split; [done|]].
        apply lookup_delete_is_Some. auto.
    + intros k' Hk'. apply lookup_insert_is_Some in Hk' as [<-|[_ Hk']].
      * destruct (H3 k ltac:(rewrite Ek; eauto)) as (k0 & Hk0 & [->| ->]);
          exists k0; (split; [done|]); right; [done | apply toLower_idem].
      * apply lookup_delete_is_Some in Hk' as [_ Hk']. auto.
    + intros k' Hk'. destruct (H1 k' Hk') as [?|Hin]; [by left | right].
      apply elem_of_cons in Hin as [->|?]; [|done].
      rewrite Ek in Hk'. destruct Hk' as [? ?]; congruence.
    + intros k0 Hk0. destruct (H2 k0 Hk0) as [Hl|[Hs Hin]]; [by left | right; split; [done|]].
      apply elem_of_cons in Hin as [->|?]; [|done].
      rewrite Ek in Hs. destruct Hs as [? ?]; congruence.
    + exact H3.
Qed.

(** When the range statement reaches every original key, the metadata
    ends up with lower-case keys only, one for each lower-cased original
    key. *)
Theorem lowerMetadataKeys_keys (ks : list string) (metadata : gmap string string)
  (Hks : dom metadata ⊆ list_to_set ks) :
  (∀ k, k ∈ dom (lowerMetadataKeys ks metadata) → toLower k = k) ∧
  dom (lowerMetadataKeys ks metadata) = set_map toLower (dom metadata).
Proof.
  assert (Hin : ∀ k, is_Some (metadata !! k) → k ∈ ks).
  { intros k Hk. apply (elem_of_list_to_set (C := gset string)). apply Hks. by apply elem_of_dom. }
  destruct (lowerMetadataKeys_inv metadata ks metadata) as (R1 & R2 & R3).
  - intros k Hk. right. auto.
  - intros k Hk. right. auto.
  - intros k Hk. exists k. auto.
  - split.
    + intros k Hk. apply R1. by apply elem_of_dom.
    + apply set_eq. intros k. rewrite elem_of_map, elem_of_dom. split.
      * intros Hk. destruct (R3 k Hk) as (k0 & Hk0 & [->| ->]).
        -- exists k0. split; [symmetry; by apply R1 | by apply elem_of_dom].
        -- exists k0. split; [done | by apply elem_of_dom].
      * intros (k0 & -> & Hk0). apply R2. by apply elem_of_dom.
Qed.

Lemma lowerMetadataKeys_keys_witness :
  dom (list_to_map [("Color", "red"); ("size", "M")] : gmap string string)
    ⊆ list_to_set ["Color"; "size"] ∧
  dom (lowerMetadataKeys ["Color"; "size"] (list_to_map [("Color", "red"); ("size", "M")]))
    = set_map toLower (dom (list_to_map [("Color", "red"); ("size", "M")] : gmap string string)).
Proof.
  assert (H : dom (list_to_map [("Color", "red"); ("size", "M")] : gmap string string)
                ⊆ list_to_set ["Color"; "size"])
    by (apply (bool_decide_eq_true_1 _); vm_compute; reflexivity).
  split; [exact H|].
  exact (proj2 (lowerMetadataKeys_keys ["Color"; "size"] _ H)).
Defined.

Lemma trimLeftQuote_start s : startsWithQuote (trimLeftQuote s) = false.
Proof.
  induction s as [|c s IH]; simpl; [done|].
  case_bool_decide as H; [done|]. simpl. by rewrite bool_decide_eq_false_2.
Qed.

Lemma trimRightQuote_end s : endsWithQuote (trimRightQuote s) = false.
Proof.
  induction s as [|c s IH]; [done|]. simpl.
  case_bool_decide as H; [done|].
  destruct (trimRightQuote s) as [|c' r] eqn:E.
  - simpl. apply bool_decide_eq_false_2. intros ->. by apply H.
  - exact IH.
Qed.

Lemma trimRightQuote_start s : startsWithQuote s = false → startsWithQuote (trimRightQuote s) = false.
Proof. destruct s as [|c s]; [done|]. simpl. intros H. by destruct (bool_decide (_ ∧ _)). Qed.

Lemma trimLeftQuote_id s : startsWithQuote s = false → trimLeftQuote s = s.
Proof. destruct s as [|c s]; simpl; [done|]. intros H. by rewrite H. Qed.

Lemma trimRightQuote_id s : endsWithQuote s = false → trimRightQuote s = s.
Proof.
  induction s as [|c s IH]; [done|]. intros H. simpl.
  destruct s as [|c' s'].
  - simpl in H. simpl. rewrite bool_decide_eq_false_2; [done|].
    intros [_ Hc]. by rewrite bool_decide_eq_true_2 in H.
  - rewrite IH by done. rewrite bool_decide_eq_false_2; [done|]. by intros [? _].
Qed.

Lemma trimRightQuote_closing e :
  endsWithQuote e = false → trimRightQuote (String.append e (String quoteChar EmptyString)) = e.
Proof.
  induction e as [|c e IH]; intros H.
  - rewrite string_append_nil. simpl. by rewrite ?bool_decide_eq_true_2.
  - rewrite string_append_cons. simpl. destruct e as [|c' e'].
    + rewrite string_append_nil. simpl in H |- *.
      rewrite ?bool_decide_eq_true_2 by done. simpl.
      rewrite bool_decide_eq_false_2; [done|]. intros [_ Hc].
      by rewrite bool_decide_eq_true_2 in H.
    + rewrite IH by done. rewrite bool_decide_eq_false_2; [done|]. by intros [? _].
Qed.

(** The trimmed ETag neither starts nor ends with a double quote, and
    trimming it again changes nothing. *)
Theorem trimETag_trimmed (etag : string) :
  startsWithQuote (trimETag etag) = false ∧ endsWithQuote (trimETag etag) = false ∧
  trimETag (trimETag etag) = trimETag etag.
Proof.
  unfold trimETag.
  assert (Hs : startsWithQuote (trimRightQuote (trimLeftQuote etag)) = false)
    by (apply trimRightQuote_start, trimLeftQuote_start).
  assert (He := trimRightQuote_end (trimLeftQuote etag)).
  split_and!; [done | done |].
  rewrite (trimLeftQuote_id _ Hs). by apply trimRightQuote_id.
Qed.

(** An ETag sent in double quotes is trimmed to the bare value, when the
    value itself neither starts nor ends with a double quote. *)
Theorem trimETag_quoted (e : string)
  (Hs : startsWithQuote e = false) (He : endsWithQuote e = false) :
  trimETag (String quoteChar (String.append e (String quoteChar EmptyString))) = e.
Proof.
  unfold trimETag. simpl. rewrite ?bool_decide_eq_true_2 by done.
  destruct e as [|c e'].
  - rewrite string_append_nil. simpl. by rewrite ?bool_decide_eq_true_2.
  - rewrite trimLeftQuote_id; [by apply trimRightQuote_closing|].
    rewrite string_append_cons. exact Hs.
Qed.

Lemma trimETag_quoted_witness :
  startsWithQuote "9b2cf535f27731c974343645a3985328" = false ∧
  endsWithQuote "9b2cf535f27731c974343645a3985328" = false ∧
  trimETag (String quoteChar (String.append "9b2cf535f27731c974343645a3985328"
                                (String quoteChar EmptyString)))
    = "9b2cf535f27731c974343645a3985328".
Proof.
  assert (H1 : startsWithQuote "9b2cf535f27731c974343645a3985328" = false)
    by (vm_compute; reflexivity).
  assert (H2 : endsWithQuote "9b2cf535f27731c974343645a3985328" = false)
    by (vm_compute; reflexivity).
  split_and!; [exact H1 | exact H2 |].
  exact (trimETag_quoted _ H1 H2).
Defined.


Lemma expandS3Grant_nonempty m v : expandS3Grant (Some m) = Some v → v ≠ EmptyString.
Proof.
  unfold expandS3Grant. destruct (nonEmpty (g_type m)); [|done].
  repeat case_bool_decide; intros Hv; apply fmap_Some in Hv as (x & _ & ->);
    rewrite string_append_cons; discriminate.
Qed.

Lemma glField_addGrant p perm v acc :
  p ∈ [PermissionFullControl; PermissionRead; PermissionReadAcp; PermissionWriteAcp] →
  glField p (addGrant perm v acc) = glField p acc ++ (if bool_decide (p = perm) then [v] else []).
Proof.
  intros Hp. apply list_elem_of_In in Hp. simpl in Hp.
  unfold glField, addGrant.
  unfold PermissionFullControl, PermissionRead, PermissionReadAcp, PermissionWriteAcp in *.
  destruct Hp as [<-|[<-|[<-|[<-|[]]]]];
    repeat case_bool_decide; simplify_eq; simpl; by rewrite ?app_nil_r.
Qed.

Lemma expandGrantPerms_some m perms acc v :
  expandS3Grant (Some m) = Some v →
  expandGrantPerms m perms acc = Some (foldl (λ acc perm, addGrant perm v acc) acc perms).
Proof.
  intros Hv. pose proof (expandS3Grant_nonempty _ _ Hv) as Hne.
  revert acc. induction perms as [|perm perms IH]; intros acc; cbn [expandGrantPerms foldl]; [done|].
  rewrite Hv. simpl. rewrite bool_decide_eq_true_2 by done. apply IH.
Qed.

Lemma expandGrantPerms_none_iff m perms acc :
  expandGrantPerms m perms acc = None ↔ perms ≠ [] ∧ expandS3Grant (Some m) = None.
Proof.
  destruct (expandS3Grant (Some m)) as [v|] eqn:Ev.
  - rewrite (expandGrantPerms_some _ _ _ _ Ev). naive_solver.
  - destruct perms as [|perm perms]; cbn [expandGrantPerms]; [naive_solver|]. rewrite Ev. naive_solver.
Qed.

Lemma glField_foldl p perms v acc :
  p ∈ [PermissionFullControl; PermissionRead; PermissionReadAcp; PermissionWriteAcp] →
  NoDup perms →
  glField p (foldl (λ acc perm, addGrant perm v acc) acc perms) =
  glField p acc ++ (if bool_decide (p ∈ perms) then [v] else []).
Proof.
  intros Hp Hnd. revert acc. induction Hnd as [|perm perms Hni Hnd IH]; intros acc; cbn [foldl].
  - rewrite bool_decide_eq_false_2 by (apply not_elem_of_nil). by rewrite app_nil_r.
  - rewrite IH, glField_addGrant by done. rewrite <-app_assoc. f_equal.
    destruct (decide (p = perm)) as [->|Hne].
    + rewrite (bool_decide_eq_true_2 (perm = perm)) by done.
      rewrite (bool_decide_eq_false_2 (perm ∈ perms)) by done.
      rewrite (bool_decide_eq_true_2 (perm ∈ perm :: perms)) by (by left). done.
    + rewrite (bool_decide_eq_false_2 (p = perm)) by done. simpl.
      destruct (decide (p ∈ perms)) as [Hin|Hin].
      * rewrite !bool_decide_eq_true_2; [done | by right | done].
      * rewrite !bool_decide_eq_false_2; [done | | done].
        rewrite elem_of_cons. naive_solver.
Qed.

Lemma grantsWith_cons p e l : grantsWith p (e :: l) = grantsWith p [e] ++ grantsWith p l.
Proof. unfold grantsWith. simpl. by rewrite app_nil_r. Qed.

Lemma grantsWith_map p m ps v :
  g_permissions m = Some ps → expandS3Grant (Some m) = Some v →
  grantsWith p [TfMap m] = if bool_decide (p ∈ ps) then [v] else [].
Proof. intros Hps Hv. unfold grantsWith. rewrite bind_singleton. cbv beta iota. by rewrite Hps, Hv. Qed.

Lemma expandGrantList_field p tfList acc acc' :
  p ∈ [PermissionFullControl; PermissionRead; PermissionReadAcp; PermissionWriteAcp] →
  expandGrantList tfList acc = Some acc' →
  glField p acc' = glField p acc ++ grantsWith p tfList.
Proof.
  intros Hp. revert acc. induction tfList as [|e l IH]; intros acc H; simpl in H.
  - injection H as <-. by rewrite app_nil_r.
  - rewrite grantsWith_cons.
    destruct e as [m|]; [|by rewrite (IH _ H)].
    destruct (g_permissions m) as [ps|] eqn:Eps; simpl in H; [|done].
    destruct (expandGrantPerms m (elements ps) acc) as [acc1|] eqn:E1; simpl in H; [|done].
    rewrite (IH _ H), app_assoc. f_equal.
    destruct (expandS3Grant (Some m)) as [v|] eqn:Ev.
    + rewrite (expandGrantPerms_some _ _ _ _ Ev) in E1. injection E1 as <-.
      rewrite glField_foldl by (done || apply NoDup_elements).
      rewrite (grantsWith_map _ _ _ _ Eps Ev). f_equal.
      destruct (decide (p ∈ ps)) as [Hin|Hin].
      * rewrite !bool_decide_eq_true_2; [done | done | by apply elem_of_elements].
      * rewrite !bool_decide_eq_false_2; [done | done | by rewrite elem_of_elements].
    + destruct (elements ps) eqn:Ee; cbn [expandGrantPerms] in E1; [|by rewrite Ev in E1].
      injection E1 as <-. unfold grantsWith. rewrite bind_singleton. cbv beta iota.
      by rewrite Eps, Ev, app_nil_r.
Qed.

Lemma expandGrantList_none tfList acc :
  expandGrantList tfList acc = None ↔ ∃ e, e ∈ tfList ∧ grantPanics e.
Proof.
  revert acc. induction tfList as [|e l IH]; intros acc; simpl.
  - split; [done|]. intros (e & He & _). by apply not_elem_of_nil in He.
  - assert (Hcons : (∃ e', e' ∈ e :: l ∧ grantPanics e') ↔
                    grantPanics e ∨ ∃ e', e' ∈ l ∧ grantPanics e').
    { setoid_rewrite elem_of_cons. naive_solver. }
    rewrite Hcons. destruct e as [m|]; simpl; [|rewrite <-IH; naive_solver].
    destruct (g_permissions m) as [ps|] eqn:Eps; simpl; [|naive_solver].
    destruct (expandGrantPerms m (elements ps) acc) as [acc1|] eqn:E1; simpl.
    + rewrite <-(IH acc1). split; [naive_solver|]. intros [[Hne Hv]|H]; [|done].
      exfalso. rewrite (proj2 (expandGrantPerms_none_iff m (elements ps) acc)) in E1; [done|].
      split; [|done]. intros Ee. apply Hne. apply leibniz_equiv. by apply elements_empty_iff.
    + apply expandGrantPerms_none_iff in E1 as [Hne Hv].
      split; [intros _; left | done]. split; [|done].
      intros ->. apply Hne. apply elements_empty.
Qed.

Lemma joinedField_None l : joinedField l = None ↔ l = [].
Proof. unfold joinedField. case_bool_decide; destruct l; simpl in *; split; try done; lia. Qed.

Lemma grantsWith_nil_iff p tfList :
  (∀ e, e ∈ tfList → ¬ grantPanics e) →
  grantsWith p tfList = [] ↔ ∀ e, e ∈ tfList → ¬ listsPermission p e.
Proof.
  induction tfList as [|e l IH]; intros Hok.
  - split; [|done]. intros _ e He. by apply not_elem_of_nil in He.
  - rewrite grantsWith_cons, app_nil.
    rewrite IH by (intros e' He'; apply Hok; by right).
    setoid_rewrite elem_of_cons.
    assert (He : grantsWith p [e] = [] ↔ ¬ listsPermission p e).
    { assert (Hne := Hok e ltac:(by left)). destruct e as [m|]; [|done].
      unfold grantsWith, listsPermission, grantPanics in *. rewrite bind_singleton.
      cbv beta iota.
      destruct (g_permissions m) as [ps|]; [|done].
      destruct (expandS3Grant (Some m)) as [v|] eqn:Ev.
      - simpl. case_bool_decide; naive_solver.
      - simpl. split; [|done]. intros _ Hin.
        apply Hne. split; [|done]. intros ->. by apply not_elem_of_empty in Hin. }
    rewrite He. naive_solver.
Qed.

(** expandS3Grants returns nil exactly for the empty grant list, and panics
    exactly when some grant of the list panics: its "permissions" is not a
    set, or it lists permissions and its grantee cannot be rendered. *)
Theorem expandS3Grants_outcomes (tfList : list TfElem) :
  (expandS3Grants tfList = Some None ↔ tfList = []) ∧
  (expandS3Grants tfList = None ↔ ∃ e, e ∈ tfList ∧ grantPanics e).
Proof.
  unfold expandS3Grants. destruct tfList as [|e l].
  - simpl. split; [done|]. split; [done|]. intros (e & He & _). by apply not_elem_of_nil in He.
  - rewrite bool_decide_eq_false_2 by done.
    rewrite <-(expandGrantList_none (e :: l)
                 {| gl_FullControl := []; gl_Read := []; gl_ReadACP := []; gl_WriteACP := [] |}).
    destruct (expandGrantList (e :: l) _); simpl; split; split; done.
Qed.

Lemma expandS3Grants_fields_eq (tfList : list TfElem) (g : s3Grants) :
  expandS3Grants tfList = Some (Some g) →
  gs_FullControl g = joinedField (grantsWith PermissionFullControl tfList) ∧
  gs_Read g = joinedField (grantsWith PermissionRead tfList) ∧
  gs_ReadACP g = joinedField (grantsWith PermissionReadAcp tfList) ∧
  gs_WriteACP g = joinedField (grantsWith PermissionWriteAcp tfList).
Proof.
  intros H. unfold expandS3Grants in H. case_bool_decide; [done|].
  destruct (expandGrantList tfList _) as [acc|] eqn:E; simpl in H; [|done].
  injection H as <-. simpl.
  pose proof (λ p Hp, expandGrantList_field p _ _ _ Hp E) as Hf.
  assert (H1 := Hf PermissionFullControl ltac:(by left)).
  assert (H2 := Hf PermissionRead ltac:(right; by left)).
  assert (H3 := Hf PermissionReadAcp ltac:(right; right; by left)).
  assert (H4 := Hf PermissionWriteAcp ltac:(right; right; right; by left)).
  unfold glField in H1, H2, H3, H4.
  unfold PermissionFullControl, PermissionRead, PermissionReadAcp, PermissionWriteAcp in *.
  simpl in H1, H2, H3, H4. rewrite H1, H2, H3, H4. done.
Qed.

(** When expandS3Grants succeeds, each of the four header fields is the
    comma-joined list of the grantee strings of the grants listing that
    permission, in list order, and is absent when there is none. *)
Theorem expandS3Grants_fields (tfList : list TfElem) (g : s3Grants)
  (H : expandS3Grants tfList = Some (Some g)) :
  gs_FullControl g = joinedField (grantsWith PermissionFullControl tfList) ∧
  gs_Read g = joinedField (grantsWith PermissionRead tfList) ∧
  gs_ReadACP g = joinedField (grantsWith PermissionReadAcp tfList) ∧
  gs_WriteACP g = joinedField (grantsWith PermissionWriteAcp tfList).
Proof. exact (expandS3Grants_fields_eq tfList g H). Qed.

(** When expandS3Grants succeeds, a header field is left unset exactly when
    no grant of the list names that permission. *)
Theorem expandS3Grants_absent (tfList : list TfElem) (g : s3Grants)
  (H : expandS3Grants tfList = Some (Some g)) :
  (gs_FullControl g = None ↔ ∀ e, e ∈ tfList → ¬ listsPermission PermissionFullControl e) ∧
  (gs_Read g = None ↔ ∀ e, e ∈ tfList → ¬ listsPermission PermissionRead e) ∧
  (gs_ReadACP g = None ↔ ∀ e, e ∈ tfList → ¬ listsPermission PermissionReadAcp e) ∧
  (gs_WriteACP g = None ↔ ∀ e, e ∈ tfList → ¬ listsPermission PermissionWriteAcp e).
Proof.
  unfold expandS3Grants in H. case_bool_decide; [done|].
  destruct (expandGrantList tfList _) as [acc|] eqn:E; simpl in H; [|done].
  assert (Hok : ∀ e, e ∈ tfList → ¬ grantPanics e).
  { intros e He Hp. rewrite (proj2 (expandGrantList_none tfList _)) in E; [done|].
    by exists e. }
  injection H as <-. simpl.
  rewrite !joinedField_None, <-!(grantsWith_nil_iff _ _ Hok).
  pose proof (λ p Hp, expandGrantList_field p _ _ _ Hp E) as Hf.
  assert (H1 := Hf PermissionFullControl ltac:(by left)).
  assert (H2 := Hf PermissionRead ltac:(right; by left)).
  assert (H3 := Hf PermissionReadAcp ltac:(right; right; by left)).
  assert (H4 := Hf PermissionWriteAcp ltac:(right; right; right; by left)).
  unfold glField in H1, H2, H3, H4.
  unfold PermissionFullControl, PermissionRead, PermissionReadAcp, PermissionWriteAcp in *.
  simpl in H1, H2, H3, H4. rewrite H1, H2, H3, H4. done.
Qed.

Lemma copyObjectInput_None d : copyObjectInput d = None ↔ grantFields d = None.
Proof. unfold copyObjectInput. destruct (grantFields d); simpl; split; done. Qed.

Lemma grantFields_None d l :
  get d "grant" = AGrants l → grantFields d = None ↔ ∃ e, e ∈ l ∧ grantPanics e.
Proof.
  intros Hg. unfold grantFields, getOk, getGrants. rewrite Hg. cbn [isZero].
  destruct l as [|e l].
  - rewrite bool_decide_eq_true_2 by done. simpl.
    split; [done|]. intros (e & He & _). by apply not_elem_of_nil in He.
  - rewrite bool_decide_eq_false_2 by done. simpl negb. cbv iota.
    unfold expandS3Grants. rewrite bool_decide_eq_false_2 by done.
    rewrite <-(expandGrantList_none (e :: l)
                 {| gl_FullControl := []; gl_Read := []; gl_ReadACP := []; gl_WriteACP := [] |}).
    destruct (expandGrantList (e :: l) _); simpl; split; done.
Qed.

Lemma grantFields_Some d gs :
  grantFields d = Some gs →
  (getOk d "grant" = false ∧ gs = None) ∨
  (getOk d "grant" = true ∧ ∃ g, gs = Some g ∧ expandS3Grants (getGrants d) = Some (Some g)).
Proof.
  unfold grantFields. destruct (getOk d "grant").
  - destruct (expandS3Grants (getGrants d)) as [[g|]|]; intros H; [|done|done].
    injection H as <-. right. eauto.
  - intros H. injection H as <-. by left.
Qed.

(** DoCopy: building the request panics exactly when some grant of a
    non-empty [grant] set panics in expandS3Grants, and then no call is
    made and the id is untouched; otherwise a failed CopyObject call
    leaves the id untouched and reports the wrapped error after that one
    call, and a successful one sets the id to the key and hands over to
    resourceAwsS3BucketObjectRead, whose outcome is the result, with the id
    set whatever that outcome is. *)
Theorem resourceAwsS3ObjectCopyDoCopy_outcomes (env : Env) (d : ResourceData) (s : St) :
  (∀ l, get d "grant" = AGrants l →
        (copyObjectInput d = None ↔ ∃ e, e ∈ l ∧ grantPanics e)) ∧
  (copyObjectInput d = None →
     resourceAwsS3ObjectCopyDoCopy env d s = (inl (E3Panic "expandS3Grants"), s)) ∧
  (∀ input e, copyObjectInput d = Some input → e_copy env input = Some e →
     resourceAwsS3ObjectCopyDoCopy env d s =
       (inl (E3Wrap "Error copying S3 object" (E3Aws e)),
        {| st_id := st_id s; st_trace := st_trace s ++ [EvCopyObject input] |})) ∧
  (∀ input, copyObjectInput d = Some input → e_copy env input = None →
     resourceAwsS3ObjectCopyDoCopy env d s =
       (match e_object_read env with Some e => inl e | None => inr () end,
        {| st_id := getString d "key";
           st_trace := st_trace s ++ [EvCopyObject input;
                                      EvSetId (getString d "key"); EvBucketObjectRead] |})).
Proof.
  split_and!.
  - intros l Hg. rewrite copyObjectInput_None. by apply grantFields_None.
  - intros Hi. unfold resourceAwsS3ObjectCopyDoCopy. by rewrite Hi.
  - intros input e Hi He. unfold resourceAwsS3ObjectCopyDoCopy. rewrite Hi.
    unfold mbind, M_bind, emit, setId, throw, mret, M_ret.
    simpl. by rewrite He.
  - intros input Hi He. unfold resourceAwsS3ObjectCopyDoCopy. rewrite Hi.
    unfold mbind, M_bind, emit, setId, throw, mret, M_ret.
    simpl. rewrite He. simpl. rewrite <-!app_assoc.
    by destruct (e_object_read env).
Qed.

Lemma expandS3Grants_fields_witness :
  expandS3Grants grantListSample = Some (Some grantsSample) ∧
  (gs_FullControl grantsSample = joinedField (grantsWith PermissionFullControl grantListSample) ∧
   gs_Read grantsSample = joinedField (grantsWith PermissionRead grantListSample) ∧
   gs_ReadACP grantsSample = joinedField (grantsWith PermissionReadAcp grantListSample) ∧
   gs_WriteACP grantsSample = joinedField (grantsWith PermissionWriteAcp grantListSample)).
Proof.
  assert (H : expandS3Grants grantListSample = Some (Some grantsSample))
    by (vm_compute; reflexivity).
  split; [exact H | exact (expandS3Grants_fields _ _ H)].
Defined.

Lemma expandS3Grants_absent_witness :
  expandS3Grants grantListSample = Some (Some grantsSample) ∧
  (gs_ReadACP grantsSample = None ↔
     ∀ e, e ∈ grantListSample → ¬ listsPermission PermissionReadAcp e).
Proof.
  assert (H : expandS3Grants grantListSample = Some (Some grantsSample))
    by (vm_compute; reflexivity).
  split; [exact H | exact (proj1 (proj2 (proj2 (expandS3Grants_absent _ _ H))))].
Defined.

(** A canonical-user grant without an id makes DoCopy panic before any
    call; with the sample grant list the copy request carries the grant
    headers and no ACL, and its source is URL-escaped. *)
Example docopy_grant_samples :
  resourceAwsS3ObjectCopyDoCopy envOk dGrantNoId emptySt = (inl (E3Panic "expandS3Grants"), emptySt) ∧
  (co_ACL <$> copyObjectInput dGrantCopy) = Some None ∧
  (co_GrantFullControl <$> copyObjectInput dGrantCopy) = Some (Some "id=abc") ∧
  (co_GrantRead <$> copyObjectInput dGrantCopy) = Some (Some "id=abc,emailaddress=a@example.com") ∧
  (co_CopySource <$> copyObjectInput dGrantCopy) = Some "src%2Fk".
Proof. split_and!; vm_compute; reflexivity. Qed.

Lemma copyObjectInput_acl_grants_eq (d : ResourceData) (input : CopyObjectInput) :
  copyObjectInput d = Some input →
  (getOk d "grant" = false →
     co_ACL input = optString d "acl" ∧ co_GrantFullControl input = None ∧
     co_GrantRead input = None ∧ co_GrantReadACP input = None ∧ co_GrantWriteACP input = None) ∧
  (∀ l, get d "grant" = AGrants l → getOk d "grant" = true →
     co_ACL input = None ∧
     co_GrantFullControl input = joinedField (grantsWith PermissionFullControl l) ∧
     co_GrantRead input = joinedField (grantsWith PermissionRead l) ∧
     co_GrantReadACP input = joinedField (grantsWith PermissionReadAcp l) ∧
     co_GrantWriteACP input = joinedField (grantsWith PermissionWriteAcp l)).
Proof.
  intros Hi. unfold copyObjectInput in Hi.
  destruct (grantFields d) as [gs|] eqn:Eg; simpl in Hi; [|done]. injection Hi as <-.
  destruct (grantFields_Some _ _ Eg) as [[Hok ->]|[Hok (g & -> & Hx)]].
  - split; [intros _; done | intros l _ H; congruence].
  - split; [intros H; congruence|]. intros l Hg _. unfold getGrants in Hx. rewrite Hg in Hx.
    destruct (expandS3Grants_fields_eq _ _ Hx) as (H1 & H2 & H3 & H4).
    cbn [co_ACL co_GrantFullControl co_GrantRead co_GrantReadACP co_GrantWriteACP].
    simpl. rewrite H1, H2, H3, H4. done.
Qed.

(** The ACL and grant headers of the copy request: without a [grant] set
    the request carries the [acl] attribute and no grant header; with a
    non-empty one it carries no ACL and, for each permission, the
    comma-joined grantee strings of the grants listing it. *)
Theorem copyObjectInput_acl_grants (d : ResourceData) (input : CopyObjectInput)
  (Hi : copyObjectInput d = Some input) :
  (getOk d "grant" = false →
     co_ACL input = optString d "acl" ∧ co_GrantFullControl input = None ∧
     co_GrantRead input = None ∧ co_GrantReadACP input = None ∧ co_GrantWriteACP input = None) ∧
  (∀ l, get d "grant" = AGrants l → getOk d "grant" = true →
     co_ACL input = None ∧
     co_GrantFullControl input = joinedField (grantsWith PermissionFullControl l) ∧
     co_GrantRead input = joinedField (grantsWith PermissionRead l) ∧
     co_GrantReadACP input = joinedField (grantsWith PermissionReadAcp l) ∧
     co_GrantWriteACP input = joinedField (grantsWith PermissionWriteAcp l)).
Proof. exact (copyObjectInput_acl_grants_eq d input Hi). Qed.

Lemma copyObjectInput_acl_grants_witness :
  ∃ input, copyObjectInput dGrantCopy = Some input ∧
  ((getOk dGrantCopy "grant" = false →
     co_ACL input = optString dGrantCopy "acl" ∧ co_GrantFullControl input = None ∧
     co_GrantRead input = None ∧ co_GrantReadACP input = None ∧ co_GrantWriteACP input = None) ∧
   (∀ l, get dGrantCopy "grant" = AGrants l → getOk dGrantCopy "grant" = true →
     co_ACL input = None ∧
     co_GrantFullControl input = joinedField (grantsWith PermissionFullControl l) ∧
     co_GrantRead input = joinedField (grantsWith PermissionRead l) ∧
     co_GrantReadACP input = joinedField (grantsWith PermissionReadAcp l) ∧
     co_GrantWriteACP input = joinedField (grantsWith PermissionWriteAcp l))).
Proof.
  destruct (copyObjectInput dGrantCopy) as [input|] eqn:Hi;
    [|exfalso; revert Hi; vm_compute; discriminate].
  exists input. split; [reflexivity|].
  exact (copyObjectInput_acl_grants dGrantCopy input Hi).
Defined.

Lemma upperhex_value n :
  n < 16 → nat_of_ascii (upperhex n) = if bool_decide (n < 10) then 48 + n else 55 + n.
Proof.
  intros Hn. unfold upperhex. apply nat_ascii_embedding. case_bool_decide; lia.
Qed.

Lemma upperhex_inj a b : a < 16 → b < 16 → upperhex a = upperhex b → a = b.
Proof.
  intros Ha Hb H. apply (f_equal nat_of_ascii) in H.
  rewrite !upperhex_value in H by done.
  repeat case_bool_decide; lia.
Qed.

Lemma upperhex_unreserved n : n < 16 → isUnreserved (upperhex n) = true.
Proof.
  intros Hn. unfold isUnreserved. rewrite upperhex_value by done.
  apply bool_decide_eq_true_2. case_bool_decide; lia.
Qed.

Lemma ascii_digits (c : ascii) :
  nat_of_ascii c / 16 < 16 ∧ nat_of_ascii c mod 16 < 16 ∧
  nat_of_ascii c = 16 * (nat_of_ascii c / 16) + nat_of_ascii c mod 16.
Proof.
  pose proof (nat_ascii_bounded c) as Hb.
  split_and!; [apply Nat.Div0.div_lt_upper_bound; lia | apply Nat.mod_upper_bound; lia |].
  apply Nat.div_mod. lia.
Qed.

Lemma isUnreserved_pct : isUnreserved "%"%char = false.
Proof. reflexivity. Qed.

Lemma isUnreserved_plus : isUnreserved "+"%char = false.
Proof. reflexivity. Qed.

Lemma queryEscape_cons c s :
  queryEscape (String c s) =
    if isUnreserved c then String c (queryEscape s)
    else if bool_decide (c = " "%char) then String "+" (queryEscape s)
    else String "%" (String (upperhex (nat_of_ascii c / 16))
                       (String (upperhex (nat_of_ascii c mod 16)) (queryEscape s))).
Proof. reflexivity. Qed.

Lemma String_inj c1 c2 (s1 s2 : string) : String c1 s1 = String c2 s2 → c1 = c2 ∧ s1 = s2.
Proof. by intros [= -> ->]. Qed.

Lemma queryEscape_inj s1 s2 : queryEscape s1 = queryEscape s2 → s1 = s2.
Proof.
  revert s2. induction s1 as [|c1 s1 IH]; intros [|c2 s2]; [done| | |].
  - rewrite queryEscape_cons. cbn [queryEscape].
    destruct (isUnreserved c2); [done|]. case_bool_decide; done.
  - rewrite queryEscape_cons. cbn [queryEscape].
    destruct (isUnreserved c1); [done|]. case_bool_decide; done.
  - rewrite !queryEscape_cons.
    destruct (isUnreserved c1) eqn:U1, (isUnreserved c2) eqn:U2;
      repeat case_bool_decide; subst; intros Heq;
      repeat (apply String_inj in Heq as [? Heq]); subst;
      try (f_equal; by apply IH);
      try (by rewrite ?isUnreserved_pct, ?isUnreserved_plus in *).
    destruct (ascii_digits c1) as (A1 & B1 & E1), (ascii_digits c2) as (A2 & B2 & E2).
    match goal with
    | Hh : upperhex (_ / 16) = upperhex (_ / 16),
      Hl : upperhex (_ mod 16) = upperhex (_ mod 16),
      Ht : queryEscape _ = queryEscape _ |- _ =>
        apply upperhex_inj in Hh; [|done|done]; apply upperhex_inj in Hl; [|done|done];
        rewrite (IH _ Ht)
    end.
    f_equal.
    rewrite <-(ascii_nat_embedding c1), <-(ascii_nat_embedding c2). f_equal. lia.
Qed.

Lemma queryEscape_chars s c :
  c ∈ list_ascii_of_string (queryEscape s) →
  isUnreserved c = true ∨ c = "%"%char ∨ c = "+"%char.
Proof.
  induction s as [|c0 s IH]; [intros H; by apply not_elem_of_nil in H|].
  rewrite queryEscape_cons.
  destruct (isUnreserved c0) eqn:U; [|case_bool_decide]; cbn [list_ascii_of_string];
    rewrite ?elem_of_cons; intros Hin.
  - destruct Hin as [->|Hin]; [by left | by apply IH].
  - destruct Hin as [->|Hin]; [by right; right | by apply IH].
  - destruct (ascii_digits c0) as (A & B & _).
    destruct Hin as [->|[->|[->|Hin]]]; [by right; left | left; by apply upperhex_unreserved
                                        | left; by apply upperhex_unreserved | by apply IH].
Qed.

Lemma queryEscape_unreserved s :
  (∀ c, c ∈ list_ascii_of_string s → isUnreserved c = true) → queryEscape s = s.
Proof.
  induction s as [|c s IH]; [done|]. intros H. rewrite queryEscape_cons.
  cbn [list_ascii_of_string] in H.
  rewrite H by (by left). rewrite IH; [done|]. intros c' Hc'. apply H. by right.
Qed.

(** The copy source is sent through url.QueryEscape: distinct [source]
    attributes give distinct CopySource values, the escaped value holds
    only unreserved characters, '%' and '+', and a source made of
    unreserved characters only is sent unchanged. *)
Theorem copyObjectInput_source_escaped :
  (∀ d1 d2 i1 i2, copyObjectInput d1 = Some i1 → copyObjectInput d2 = Some i2 →
     co_CopySource i1 = co_CopySource i2 → getString d1 "source" = getString d2 "source") ∧
  (∀ d input c, copyObjectInput d = Some input →
     c ∈ list_ascii_of_string (co_CopySource input) →
     isUnreserved c = true ∨ c = "%"%char ∨ c = "+"%char) ∧
  (∀ d input, copyObjectInput d = Some input →
     (∀ c, c ∈ list_ascii_of_string (getString d "source") → isUnreserved c = true) →
     co_CopySource input = getString d "source").
Proof.
  assert (Hsrc : ∀ d input, copyObjectInput d = Some input →
                   co_CopySource input = queryEscape (getString d "source")).
  { intros d input Hi. unfold copyObjectInput in Hi.
    destruct (grantFields d); simpl in Hi; [|done]. by injection Hi as <-. }
  split_and!.
  - intros d1 d2 i1 i2 H1 H2 E. apply queryEscape_inj.
    by rewrite <-(Hsrc _ _ H1), <-(Hsrc _ _ H2).
  - intros d input c Hi. rewrite (Hsrc _ _ Hi). apply queryEscape_chars.
  - intros d input Hi Hu. rewrite (Hsrc _ _ Hi). by apply queryEscape_unreserved.
Qed.

End S3ObjectCopyMoreFacts.
